(** * Network: a graph-backed discrete space

    Shallow embedding of [mesa/discrete_space/network.py].

    The class [Network] binds a graph [G] to the cell container it inherits
    from [DiscreteSpace].  Cells are mutable Python objects that refer to one
    another through their [connections] dictionaries, so the embedding keeps
    an explicit object store ([heap]) and every reference to a cell is an
    address into it.  Every method is a computation in a state-and-exception
    monad: a raised exception keeps the state reached so far, exactly as a
    Python exception performs no rollback. *)

From stdpp Require Import base option list gmap sets fin_maps fin_sets.

#[local] Set Warnings "-clear-no-such-hyp".

(** ** Exceptions and the state monad *)

(** The exceptions that can leave the methods of [Network].  [KeyError] is
    the failure of a dictionary on a missing key, as in the subscript
    [self._cells[node_id]]; [NetworkXError] is what the graph raises;
    [IdentityConflict] and [MissingEntity] are the two error conditions of
    section 7, for a base class that raises them; [DanglingReference]
    stands for an address outside the object store, which no Python
    reference can be. *)
Inductive Error : Type :=
  | IdentityConflict
  | MissingEntity
  | KeyError
  | NetworkXError
  | DanglingReference.

Inductive result (A : Type) : Type :=
  | Ok (a : A)
  | Raise (e : Error).
Arguments Ok {A} a.
Arguments Raise {A} e.

(** A computation over a state [S]: it returns the state it reached together
    with a value or the exception that stopped it. *)
Definition M (S A : Type) : Type := S → S * result A.

#[global] Instance M_ret {S} : MRet (M S) := λ A a s, (s, Ok a).

#[global] Instance M_bind {S} : MBind (M S) := λ A B k m s,
  match m s with
  | (s', Ok a) => k a s'
  | (s', Raise e) => (s', Raise e)
  end.

Definition raise {S A} (e : Error) : M S A := λ s, (s, Raise e).

(** Reading the current state. *)
Definition get_state {S} : M S S := λ s, (s, Ok s).

(** [for x in l: f x] *)
Fixpoint for_each {S A} (l : list A) (f : A → M S unit) : M S unit :=
  match l with
  | [] => mret tt
  | x :: l' => f x ;; for_each l' f
  end.

(** Addresses of cell objects in the object store. *)
Abbreviation addr := nat (only parsing).

Section network.
Context `{Countable K} {Rng : Type}.

(** ** The graph backend *)

(** Modelled from the spec: the graph backend is not part of the repository
    (the constructor's docstring asks for "a NetworkX Graph instance").  It
    is modelled as the undirected graph that section 6 requires: a node set
    with, for every node, the set of its neighbours.  Node and edge
    attributes are left out, since [Network] never passes or reads any. *)
Record Graph : Type := mkGraph { _adj : gmap K (gset K) }.

(** [G.nodes], in the order the graph enumerates them. *)
Definition nodes (g : Graph) : list K := elements (dom (_adj g)).

(** [G.has_edge(u, v)] *)
Definition has_edge (g : Graph) (u v : K) : bool :=
  match _adj g !! u with
  | Some s => bool_decide (v ∈ s)
  | None => false
  end.

(** Modelled from the spec: [G.neighbors(n)], "a lazy, finite, restartable
    sequence of adjacent node identifiers"; the graph raises when [n] is not
    one of its nodes. *)
Definition neighbors (g : Graph) (n : K) : result (list K) :=
  match _adj g !! n with
  | Some s => Ok (elements s)
  | None => Raise NetworkXError
  end.

(** Modelled from the spec: [G.add_node(n)]; adding a node that is already
    there changes nothing. *)
Definition nx_add_node (n : K) (g : Graph) : Graph :=
  match _adj g !! n with
  | Some _ => g
  | None => mkGraph (<[n := ∅]> (_adj g))
  end.

(** Modelled from the spec: [G.remove_node(n)], "also removing incident
    edges"; the graph raises when [n] is not one of its nodes. *)
Definition nx_remove_node (n : K) (g : Graph) : result Graph :=
  match _adj g !! n with
  | Some _ => Ok (mkGraph (delete n ((λ s, s ∖ {[n]}) <$> _adj g)))
  | None => Raise NetworkXError
  end.

(** Modelled from the spec: [G.add_edge(u, v)]; endpoints that are not yet
    nodes are added, and adding an edge that is already there changes
    nothing. *)
Definition nx_add_edge (u v : K) (g : Graph) : Graph :=
  let g' := nx_add_node v (nx_add_node u g) in
  mkGraph (alter (λ s, {[u]} ∪ s) v (alter (λ s, {[v]} ∪ s) u (_adj g'))).

(** Modelled from the spec: [G.remove_edge(u, v)]; the graph raises when
    there is no edge between [u] and [v]. *)
Definition nx_remove_edge (u v : K) (g : Graph) : result Graph :=
  if has_edge g u v
  then Ok (mkGraph (alter (λ s, s ∖ {[u]}) v (alter (λ s, s ∖ {[v]}) u (_adj g))))
  else Raise NetworkXError.

(** ** Cells and the cell container *)

(** Modelled from the spec: the [Cell] entity of [mesa.discrete_space.cell],
    with its coordinate, its capacity, the shared randomness source and "a
    mapping from neighbor-label to connected Cell". *)
Record Cell : Type := mkCell {
  coordinate : K;
  capacity : option nat;
  random : option Rng;
  connections : gmap K addr
}.

(** The state the base class [DiscreteSpace] works on: its dictionary
    [_cells] from coordinate to cell, and the store of the cell objects. *)
Record CellSpace : Type := mkCellSpace {
  _cells : gmap K addr;
  heap : list Cell
}.

(** The state of the program: the cell side and the graph [self.G]. *)
Record World : Type := mkWorld {
  space : CellSpace;
  G : Graph
}.

(** Running a cell-side computation inside the whole state: the graph is out
    of its reach. *)
Definition liftS {A} (m : M CellSpace A) : M World A := λ w,
  let (s', r) := m (space w) in (mkWorld s' (G w), r).

(** Reading a cell object through a reference. *)
Definition deref (cell : addr) : M CellSpace Cell := λ s,
  match heap s !! cell with
  | Some c => (s, Ok c)
  | None => (s, Raise DanglingReference)
  end.

(** The same cell object with another [connections] dictionary. *)
Definition with_connections (c : Cell) (conns : gmap K addr) : Cell :=
  mkCell (coordinate c) (capacity c) (random c) conns.

(** The object store after the [connections] dictionary of the cell at
    [cell] has been rewritten by [f]. *)
Definition update_connections (cell : addr) (f : gmap K addr → gmap K addr)
    (h : list Cell) : list Cell :=
  match h !! cell with
  | Some c => <[cell := with_connections c (f (connections c))]> h
  | None => h
  end.

(** Writing a cell's [connections] dictionary in place. *)
Definition set_connections (cell : addr) (conns : gmap K addr) : M CellSpace unit := λ s,
  match heap s !! cell with
  | Some c =>
      (mkCellSpace (_cells s)
         (<[cell := with_connections c conns]> (heap s)),
       Ok tt)
  | None => (s, Raise DanglingReference)
  end.

(** Modelled from the spec: the constructor of the default cell class,
    [Cell(coordinate, capacity, random=random)]; a new cell has no
    connections. *)
Definition new_cell (coord : K) (cap : option nat) (rnd : option Rng) : M CellSpace addr := λ s,
  (mkCellSpace (_cells s) (heap s ++ [mkCell coord cap rnd ∅]), Ok (length (heap s))).

(** Modelled from the spec: [Cell.connect(other, key)], "establishing a
    one-directional adjacency record" under the label [key]. *)
Definition connect (cell other : addr) (key : K) : M CellSpace unit :=
  c ← deref cell;
  set_connections cell (<[key := other]> (connections c)).

(** Modelled from the spec: dropping the adjacency record a cell keeps under
    a label. *)
Definition disconnect (cell : addr) (key : K) : M CellSpace unit :=
  c ← deref cell;
  set_connections cell (delete key (connections c)).

(** [self._cells[k] = cell] *)
Definition set_cell (k : K) (cell : addr) : M CellSpace unit := λ s,
  (mkCellSpace (<[k := cell]> (_cells s)) (heap s), Ok tt).

(** [self._cells.pop(k)]: taking a key out of the dictionary fails when the
    key is missing. *)
Definition pop_cell (k : K) : M CellSpace unit := λ s,
  match _cells s !! k with
  | Some _ => (mkCellSpace (delete k (_cells s)) (heap s), Ok tt)
  | None => (s, Raise KeyError)
  end.

(** [self._cells[k]] *)
Definition get_cell (k : K) : M CellSpace addr := λ s,
  match _cells s !! k with
  | Some a => (s, Ok a)
  | None => (s, Raise KeyError)
  end.

(** Modelled from the spec: [DiscreteSpace.all_cells], the "iteration over
    all cells" of the base class. *)
Definition all_cells : M CellSpace (list addr) := λ s,
  (s, Ok ((map_to_list (_cells s)).*2)).

(** A cell is registered when the dictionary maps its coordinate to it. *)
Definition is_registered (s : CellSpace) (cell : addr) : bool :=
  match heap s !! cell with
  | Some c => bool_decide (_cells s !! coordinate c = Some cell)
  | None => false
  end.

(** The four mutation methods [Network] overrides and reaches through
    [super()]. *)
Class DiscreteSpace : Type := {
  super_add_cell : addr → M CellSpace unit;
  super_remove_cell : addr → M CellSpace unit;
  super_add_connection : addr → addr → M CellSpace unit;
  super_remove_connection : addr → addr → M CellSpace unit
}.

(** Modelled from the spec: [DiscreteSpace.add_cell], the method of the base
    class that [Network.add_cell] calls through [super()].  Section 2: the
    base class "owns the mapping from coordinate to Cell" and "exposes cell
    creation/registration"; registering a cell is the dictionary write
    [self._cells[cell.coordinate] = cell], whatever the dictionary held
    under that coordinate. *)
Definition base_add_cell (cell : addr) : M CellSpace unit :=
  c ← deref cell;
  set_cell (coordinate c) cell.

(** Modelled from the spec: [DiscreteSpace.remove_cell], the method of the
    base class that [Network.remove_cell] calls through [super()].  Section
    4.3: it "unregisters the Cell from the mapping" and "fails if the
    coordinate is not currently registered"; the dropping of connections is
    left to "the base/Cell collaborator", which has the [disconnect]
    operation of the Cell for it (section 1): the removed cell and every
    cell it holds a connection to are disconnected from one another. *)
Definition base_remove_cell (cell : addr) : M CellSpace unit :=
  c ← deref cell;
  pop_cell (coordinate c) ;;
  for_each ((map_to_list (connections c)).*2) (λ neighbor,
    d ← deref neighbor;
    disconnect neighbor (coordinate c) ;;
    disconnect cell (coordinate d)).

(** Modelled from the spec: [DiscreteSpace.add_connection], the method of
    the base class that [Network.add_connection] calls through [super()].
    Sections 4.4 and 6: the bidirectional connection is two [connect]
    calls, "called symmetrically", each labelled by the neighbour's
    coordinate; connecting again is idempotent. *)
Definition base_add_connection (cell1 cell2 : addr) : M CellSpace unit :=
  c1 ← deref cell1;
  c2 ← deref cell2;
  connect cell1 cell2 (coordinate c2) ;;
  connect cell2 cell1 (coordinate c1).

(** Modelled from the spec: [DiscreteSpace.remove_connection], the method
    of the base class that [Network.remove_connection] calls through
    [super()].  Section 4.5: it "removes the bidirectional cell-level
    connection", each direction by the [disconnect] of the Cell, keyed by
    the neighbour's label. *)
Definition base_remove_connection (cell1 cell2 : addr) : M CellSpace unit :=
  c1 ← deref cell1;
  c2 ← deref cell2;
  disconnect cell1 (coordinate c2) ;;
  disconnect cell2 (coordinate c1).

(** The base class as the spec describes it. *)
Definition SpecBase : DiscreteSpace := {|
  super_add_cell := base_add_cell;
  super_remove_cell := base_remove_cell;
  super_add_connection := base_add_connection;
  super_remove_connection := base_remove_connection
|}.

(** ** The class [Network] *)

(** The graph calls of [Network], on [self.G]. *)
Definition G_nodes : M World (list K) := λ w, (w, Ok (nodes (G w))).

Definition G_neighbors (n : K) : M World (list K) := λ w, (w, neighbors (G w) n).

Definition G_add_node (n : K) : M World unit := λ w,
  (mkWorld (space w) (nx_add_node n (G w)), Ok tt).

Definition G_remove_node (n : K) : M World unit := λ w,
  match nx_remove_node n (G w) with
  | Ok g => (mkWorld (space w) g, Ok tt)
  | Raise e => (w, Raise e)
  end.

Definition G_add_edge (u v : K) : M World unit := λ w,
  (mkWorld (space w) (nx_add_edge u v (G w)), Ok tt).

Definition G_remove_edge (u v : K) : M World unit := λ w,
  match nx_remove_edge u v (G w) with
  | Ok g => (mkWorld (space w) g, Ok tt)
  | Raise e => (w, Raise e)
  end.

(** [_connect_single_cell]: every neighbour of the cell's node becomes a
    connection of the cell, labelled by the neighbour's identifier. *)
Definition _connect_single_cell (cell : addr) : M World unit :=
  c ← liftS (deref cell);
  nbrs ← G_neighbors (coordinate c);
  for_each nbrs (λ node_id,
    other ← liftS (get_cell node_id);
    liftS (connect cell other node_id)).

(** [_connect_cells] *)
Definition _connect_cells : M World unit :=
  cells ← liftS all_cells;
  for_each cells _connect_single_cell.

(** The loop of [__init__] that creates one cell per node. *)
Definition create_cells (cap : option nat) (rnd : option Rng) : M World unit :=
  ns ← G_nodes;
  for_each ns (λ node_id,
    cell ← liftS (new_cell node_id cap rnd);
    liftS (set_cell node_id cell)).

(** [Network.__init__(G, capacity, random)] with the default cell class, run
    in an object store [h]: the base class starts with an empty [_cells],
    [self.G] refers to the caller's graph. *)
Definition __init__ (g : Graph) (cap : option nat) (rnd : option Rng)
    (h : list Cell) : World * result unit :=
  (create_cells cap rnd ;; _connect_cells) (mkWorld (mkCellSpace ∅ h) g).

Context {base : DiscreteSpace}.

(** [Network.add_cell] *)
Definition add_cell (cell : addr) : M World unit :=
  liftS (super_add_cell cell) ;;
  c ← liftS (deref cell);
  G_add_node (coordinate c).

(** [Network.remove_cell] *)
Definition remove_cell (cell : addr) : M World unit :=
  liftS (super_remove_cell cell) ;;
  c ← liftS (deref cell);
  G_remove_node (coordinate c).

(** [Network.add_connection] *)
Definition add_connection (cell1 cell2 : addr) : M World unit :=
  liftS (super_add_connection cell1 cell2) ;;
  c1 ← liftS (deref cell1);
  c2 ← liftS (deref cell2);
  G_add_edge (coordinate c1) (coordinate c2).

(** [Network.remove_connection] *)
Definition remove_connection (cell1 cell2 : addr) : M World unit :=
  liftS (super_remove_connection cell1 cell2) ;;
  c1 ← liftS (deref cell1);
  c2 ← liftS (deref cell2);
  G_remove_edge (coordinate c1) (coordinate c2).

(** ** Invariants of a space *)

(** The graph is undirected and closed: whenever [v] is listed as a
    neighbour of [u], [v] is a node that lists [u] as a neighbour. *)
Definition nx_wf (g : Graph) : Prop :=
  map_Forall (λ u s, set_Forall (λ v, has_edge g v u) s) (_adj g).

(** Every neighbour is a node: what any graph, directed or not, keeps. *)
Definition nx_closed (g : Graph) : Prop :=
  map_Forall (λ u s, set_Forall (λ v, is_Some (_adj g !! v)) s) (_adj g).

(** Every registered coordinate refers to a live cell that carries it. *)
Definition cells_ok (s : CellSpace) : Prop :=
  map_Forall (λ k a, coordinate <$> heap s !! a = Some k) (_cells s).

(** Invariant 1, the node/cell bijection. *)
Definition node_cell_bijection (w : World) : Prop :=
  dom (_cells (space w)) = dom (_adj (G w)).

(** What invariants 2 and 3 ask of the cell registered under [k]: its
    connection labels are the neighbours of [k] in the graph, and the
    connection labelled [v] refers to the cell registered under [v]. *)
Definition connections_ok (w : World) (k : K) (a : addr) : Prop :=
  match heap (space w) !! a with
  | Some c =>
      dom (connections c) = _adj (G w) !!! k ∧
      map_Forall (λ v t, _cells (space w) !! v = Some t) (connections c)
  | None => False
  end.

(** Invariants 2 and 3, the edge/connection correspondence without
    dangling connections. *)
Definition edge_connection (w : World) : Prop :=
  map_Forall (connections_ok w) (_cells (space w)).

(** A consistent space. *)
Definition consistent (w : World) : Prop :=
  nx_wf (G w) ∧ cells_ok (space w) ∧ node_cell_bijection w ∧ edge_connection w.

(** What the constructor gives over any graph, directed or not: a consistent
    space but for the symmetry of the edges. *)
Definition coherent (w : World) : Prop :=
  nx_closed (G w) ∧ cells_ok (space w) ∧ node_cell_bijection w ∧ edge_connection w.

#[global] Instance nx_wf_dec g : Decision (nx_wf g).
Proof. unfold nx_wf. apply _. Defined.

#[global] Instance cells_ok_dec s : Decision (cells_ok s).
Proof. unfold cells_ok. apply _. Defined.

#[global] Instance node_cell_bijection_dec w : Decision (node_cell_bijection w).
Proof. unfold node_cell_bijection. apply _. Defined.

#[global] Instance connections_ok_dec w k a : Decision (connections_ok w k a).
Proof. unfold connections_ok. destruct (heap (space w) !! a); apply _. Defined.

#[global] Instance edge_connection_dec w : Decision (edge_connection w).
Proof. unfold edge_connection. apply _. Defined.

#[global] Instance nx_closed_dec g : Decision (nx_closed g).
Proof. unfold nx_closed. apply _. Defined.

#[global] Instance consistent_dec w : Decision (consistent w).
Proof. unfold consistent. apply _. Defined.

#[global] Instance coherent_dec w : Decision (coherent w).
Proof. unfold coherent. apply _. Defined.

(** ** Loop invariants of the constructor *)

(** Every registered coordinate refers to a cell with that coordinate, the
    capacity and randomness source of the constructor, and no connection. *)
Definition fresh_cells (cap : option nat) (rnd : option Rng) (s : CellSpace) : Prop :=
  ∀ k a, _cells s !! k = Some a → heap s !! a = Some (mkCell k cap rnd ∅).

(** Every connection of the cell registered under [k] is labelled by a
    neighbour of [k] and refers to the cell registered under its label. *)
Definition sound_at (w : World) (k : K) (a : addr) : Prop :=
  ∃ c, heap (space w) !! a = Some c ∧ coordinate c = k ∧
       ∀ v t, connections c !! v = Some t →
              v ∈ _adj (G w) !!! k ∧ _cells (space w) !! v = Some t.

Definition sound (w : World) : Prop :=
  ∀ k a, _cells (space w) !! k = Some a → sound_at w k a.

(** The cell at [a] is connected to every neighbour of its node. *)
Definition complete_at (w : World) (a : addr) : Prop :=
  ∀ c, heap (space w) !! a = Some c →
       ∀ v, v ∈ _adj (G w) !!! coordinate c →
            connections c !! v = _cells (space w) !! v.

(** A computation that leaves the graph as it found it, whether it returns
    or raises. *)
Definition preserves_G {A} (m : M World A) : Prop := ∀ w, G (m w).1 = G w.

(** A cell object without its connections: what [connect] never changes. *)
Definition identity_of (c : Cell) : Cell := with_connections c ∅.

(** A computation that does nothing but rewrite the [connections] of the
    cells at the addresses in [X]: whether it returns or raises, the graph
    and the mapping are as it found them, the store holds the same objects
    with the same coordinate and capacity, and the objects outside [X] are
    untouched. *)
Definition connects_within {A} (X : addr → Prop) (m : M World A) : Prop :=
  ∀ w,
    G (m w).1 = G w ∧
    _cells (space (m w).1) = _cells (space w) ∧
    identity_of <$> heap (space (m w).1) = identity_of <$> heap (space w) ∧
    ∀ i, ¬ X i → heap (space (m w).1) !! i = heap (space w) !! i.

End network.

Arguments Graph K {_ _}.
Arguments Cell K {_ _} Rng.
Arguments CellSpace K {_ _} Rng.
Arguments World K {_ _} Rng.
Arguments DiscreteSpace K {_ _} Rng.
Arguments SpecBase K {_ _} Rng.

(** ** The scenario of section 8 *)

(** Nodes 1, 2, 3 and the edges (1, 2) and (2, 3). *)
Definition scenario_graph : Graph nat :=
  mkGraph (list_to_map [(1, {[2]}); (2, {[1; 3]}); (3, {[2]})]).

(** The space the constructor builds from it in an empty object store: the
    cells of the nodes 2, 3 and 1 are the objects 0, 1 and 2. *)
Definition scenario_world : World nat unit :=
  mkWorld
    (mkCellSpace (list_to_map [(1, 2); (2, 0); (3, 1)])
       [mkCell 2 None None (list_to_map [(1, 2); (3, 1)]);
        mkCell 3 None None {[2 := 0]};
        mkCell 1 None None {[2 := 0]}])
    scenario_graph.


(** The same space with a fresh, unregistered cell object for the
    coordinate 4. *)
Definition scenario_world_with_new_cell : World nat unit :=
  mkWorld
    (mkCellSpace (_cells (space scenario_world))
       (heap (space scenario_world) ++ [mkCell 4 None None ∅]))
    scenario_graph.

(** The same space with a second cell object for the coordinate 2 in the
    store, not registered and without connections. *)
Definition scenario_world_with_second_cell : World nat unit :=
  mkWorld
    (mkCellSpace (_cells (space scenario_world))
       (heap (space scenario_world) ++ [mkCell 2 None None ∅]))
    scenario_graph.

(** A directed graph: the nodes 1 and 2 and the one edge from 1 to 2, as a
    NetworkX DiGraph keeps it (2 is a successor of 1, 1 is no successor of
    2). *)
Definition directed_graph : Graph nat :=
  mkGraph (list_to_map [(1, {[2]}); (2, ∅)]).


(** The space the constructor builds from it in an empty object store: the
    cells of the nodes 2 and 1 are the objects 0 and 1; the cell of node 1
    holds a connection to the cell of node 2, the cell of node 2 holds
    none. *)
Definition directed_world : World nat unit :=
  mkWorld
    (mkCellSpace (list_to_map [(1, 1); (2, 0)])
       [mkCell 2 None None ∅;
        mkCell 1 None None {[2 := 0]}])
    directed_graph.

(** * Verification *)

Section monad_facts.
Context {S : Type}.

Lemma bind_Ok {A B} (m : M S A) (k : A → M S B) s s' a :
  m s = (s', Ok a) → (m ≫= k) s = k a s'.
Proof. intros Hm. unfold mbind, M_bind. by rewrite Hm. Qed.

Lemma bind_Raise {A B} (m : M S A) (k : A → M S B) s s' e :
  m s = (s', Raise e) → (m ≫= k) s = (s', Raise e).
Proof. intros Hm. unfold mbind, M_bind. by rewrite Hm. Qed.

Lemma for_each_cons {A} (x : A) l (f : A → M S unit) s s' :
  f x s = (s', Ok tt) → for_each (x :: l) f s = for_each l f s'.
Proof. intros Hf. simpl. by rewrite (bind_Ok _ _ _ _ _ Hf). Qed.

End monad_facts.

Section verification.
Context `{Countable K} {Rng : Type}.
Implicit Types (w : World K Rng) (s : CellSpace K Rng) (g : Graph K) (c : Cell K Rng).

Lemma liftS_run {A} (m : M (CellSpace K Rng) A) w s' r :
  m (space w) = (s', r) → liftS m w = (mkWorld s' (G w), r).
Proof. intros Hm. unfold liftS. by rewrite Hm. Qed.

Lemma super_first {A} (m : M (CellSpace K Rng) A) (k : A → M (World K Rng) unit) w s' r :
  m (space w) = (s', r) →
  (liftS m ≫= k) w =
    match r with
    | Ok a => k a (mkWorld s' (G w))
    | Raise e => (mkWorld s' (G w), Raise e)
    end.
Proof.
  intros Hm. apply liftS_run in Hm.
  destruct r; [by apply bind_Ok | by apply bind_Raise].
Qed.

Lemma preserves_G_ret {A} (a : A) : preserves_G (mret a : M (World K Rng) A).
Proof. by intros w. Qed.

Lemma preserves_G_bind {A B} (m : M (World K Rng) A) (k : A → M (World K Rng) B) :
  preserves_G m → (∀ a, preserves_G (k a)) → preserves_G (m ≫= k).
Proof.
  intros Hm Hk w. unfold mbind, M_bind.
  specialize (Hm w). destruct (m w) as [w' [a|e]]; simpl in *.
  - by rewrite Hk.
  - done.
Qed.

Lemma preserves_G_liftS {A} (m : M (CellSpace K Rng) A) : preserves_G (liftS m).
Proof. intros w. unfold liftS. by destruct (m (space w)). Qed.

Lemma preserves_G_nodes : preserves_G (G_nodes (K:=K) (Rng:=Rng)).
Proof. by intros w. Qed.

Lemma preserves_G_neighbors n : preserves_G (G_neighbors (K:=K) (Rng:=Rng) n).
Proof. by intros w. Qed.

Lemma preserves_G_for_each {A} (l : list A) (f : A → M (World K Rng) unit) :
  (∀ x, preserves_G (f x)) → preserves_G (for_each l f).
Proof.
  intros Hf. induction l as [|x l IH]; simpl.
  - apply preserves_G_ret.
  - apply preserves_G_bind; [apply Hf | by intros _].
Qed.

Lemma preserves_G_connect_single_cell cell :
  preserves_G (_connect_single_cell (K:=K) (Rng:=Rng) cell).
Proof.
  unfold _connect_single_cell.
  apply preserves_G_bind; [apply preserves_G_liftS | intros c].
  apply preserves_G_bind; [apply preserves_G_neighbors | intros nbrs].
  apply preserves_G_for_each. intros node_id.
  apply preserves_G_bind; [apply preserves_G_liftS | intros other].
  apply preserves_G_liftS.
Qed.

Lemma preserves_G_connect_cells : preserves_G (_connect_cells (K:=K) (Rng:=Rng)).
Proof.
  unfold _connect_cells.
  apply preserves_G_bind; [apply preserves_G_liftS | intros cells].
  apply preserves_G_for_each, preserves_G_connect_single_cell.
Qed.

Lemma preserves_G_create_cells cap rnd :
  preserves_G (create_cells (K:=K) (Rng:=Rng) cap rnd).
Proof.
  unfold create_cells.
  apply preserves_G_bind; [apply preserves_G_nodes | intros ns].
  apply preserves_G_for_each. intros node_id.
  apply preserves_G_bind; [apply preserves_G_liftS | intros cell].
  apply preserves_G_liftS.
Qed.

(** C9: constructing a Network space from a graph [g] leaves [g] as it was.
    Whatever the constructor does, and whether it returns or raises, the
    graph the space refers to afterwards is [g] itself, nodes and edges
    alike: the constructor only enumerates nodes and neighbours. *)
Theorem init_does_not_mutate_G g cap rnd (h : list (Cell K Rng)) :
  G (__init__ g cap rnd h).1 = g.
Proof.
  unfold __init__.
  pose proof (preserves_G_bind (create_cells cap rnd) (λ _, _connect_cells)
    (preserves_G_create_cells cap rnd) (λ _, preserves_G_connect_cells)) as Hp.
  by rewrite Hp.
Qed.

(** ** Construction *)

Lemma deref_run s cell c :
  heap s !! cell = Some c → deref cell s = (s, Ok c).
Proof. intros Hc. unfold deref. by rewrite Hc. Qed.

Lemma get_cell_run s k a :
  _cells s !! k = Some a → get_cell k s = (s, Ok a).
Proof. intros Hk. unfold get_cell. by rewrite Hk. Qed.

Lemma set_connections_run s cell c conns :
  heap s !! cell = Some c →
  set_connections cell conns s =
    (mkCellSpace (_cells s)
       (<[cell := with_connections c conns]> (heap s)), Ok tt).
Proof. intros Hc. unfold set_connections. by rewrite Hc. Qed.

Lemma connect_run s cell other key c :
  heap s !! cell = Some c →
  connect cell other key s =
    (mkCellSpace (_cells s)
       (<[cell := with_connections c (<[key := other]> (connections c))]> (heap s)), Ok tt).
Proof.
  intros Hc. unfold connect.
  rewrite (bind_Ok _ _ _ _ _ (deref_run _ _ _ Hc)).
  by apply set_connections_run.
Qed.

(** *** The loop that creates the cells *)

Lemma create_loop cap rnd (l : list K) w :
  fresh_cells cap rnd (space w) →
  ∃ w', for_each l (λ node_id,
          cell ← liftS (new_cell node_id cap rnd);
          liftS (set_cell node_id cell)) w = (w', Ok tt) ∧
        G w' = G w ∧
        fresh_cells cap rnd (space w') ∧
        dom (_cells (space w')) = list_to_set l ∪ dom (_cells (space w)).
Proof.
  revert w. induction l as [|n l IH]; intros w Hw.
  - exists w. split_and!; [done..|]. set_solver.
  - set (w1 := mkWorld (mkCellSpace (<[n := length (heap (space w))]> (_cells (space w)))
                          (heap (space w) ++ [mkCell n cap rnd ∅])) (G w)).
    assert (Hw1 : fresh_cells cap rnd (space w1)).
    { intros k a. simpl. rewrite lookup_insert. case_decide as Hk.
      - intros [= <-]. subst k. by rewrite lookup_app_r, Nat.sub_diag.
      - intros Hka. rewrite lookup_app_l; [by apply Hw|].
        apply Hw in Hka. by eapply lookup_lt_Some. }
    destruct (IH w1 Hw1) as (w' & Hrun & HG & Hf & Hdom).
    exists w'. split_and!; [| done | done |].
    + rewrite <- Hrun. by apply for_each_cons.
    + rewrite Hdom. simpl. rewrite dom_insert_L. set_solver.
Qed.


(** *** The loops that connect the cells *)

Lemma connect_neighbours_loop (nbrs : list K) cell : ∀ w c,
  heap (space w) !! cell = Some c →
  (∀ v, v ∈ nbrs → is_Some (_cells (space w) !! v)) →
  ∃ w' conns,
    for_each nbrs (λ node_id,
      other ← liftS (get_cell node_id);
      liftS (connect cell other node_id)) w = (w', Ok tt) ∧
    _cells (space w') = _cells (space w) ∧
    G w' = G w ∧
    heap (space w') !! cell = Some (with_connections c conns) ∧
    (∀ b, b ≠ cell → heap (space w') !! b = heap (space w) !! b) ∧
    (∀ v, conns !! v =
          if decide (v ∈ nbrs) then _cells (space w) !! v else connections c !! v).
Proof.
  induction nbrs as [|n nbrs IH]; intros w c Hc Hreg.
  - exists w, (connections c). split_and!; try done.
    by destruct c.
  - destruct (Hreg n) as [t Ht]; [left|].
    set (c1 := with_connections c (<[n := t]> (connections c))).
    set (w1 := mkWorld (mkCellSpace (_cells (space w)) (<[cell := c1]> (heap (space w)))) (G w)).
    assert (Hstep : (other ← liftS (get_cell n); liftS (connect cell other n)) w = (w1, Ok tt)).
    { rewrite (bind_Ok _ _ _ _ _ (liftS_run _ _ _ _ (get_cell_run _ _ _ Ht))).
      destruct w as [s g]. simpl in *.
      by apply (liftS_run _ (mkWorld s g)), connect_run. }
    assert (Hc1 : heap (space w1) !! cell = Some c1).
    { simpl. apply list_lookup_insert_eq. by eapply lookup_lt_Some. }
    destruct (IH w1 c1 Hc1) as (w' & conns & Hrun & Hcells & HG & Hcell & Hother & Hconns).
    { intros v Hv. apply Hreg. by right. }
    exists w', conns. split_and!; try done.
    + rewrite <- Hrun. by apply for_each_cons.
    + intros b Hb. rewrite (Hother b Hb). simpl. by apply list_lookup_insert_ne.
    + intros v. rewrite Hconns. simpl.
      destruct (decide (v = n)) as [->|Hvn].
      * rewrite lookup_insert_eq.
        rewrite (decide_True (P := n ∈ n :: nbrs)); [|left].
        by case_decide.
      * rewrite lookup_insert_ne by done.
        case_decide as Hv.
        -- rewrite decide_True; [done | by right].
        -- rewrite decide_False; [done|]. intros Hv'. apply Hv.
           by apply elem_of_cons in Hv' as [?|?].
Qed.


Lemma nx_wf_edge g u v (ns : gset K) :
  nx_wf g → _adj g !! u = Some ns → v ∈ ns →
  ∃ t, _adj g !! v = Some t ∧ u ∈ t.
Proof.
  intros Hwf Hu Hv. specialize (Hwf u ns Hu v Hv). simpl in Hwf.
  unfold has_edge in Hwf. destruct (_adj g !! v) as [t|]; [|done].
  exists t. split; [done|]. by apply bool_decide_unpack in Hwf.
Qed.

Lemma nx_closed_edge g u v (ns : gset K) :
  nx_closed g → _adj g !! u = Some ns → v ∈ ns → is_Some (_adj g !! v).
Proof. intros Hcl Hu Hv. exact (Hcl u ns Hu v Hv). Qed.

Lemma nx_wf_closed g : nx_wf g → nx_closed g.
Proof.
  intros Hwf u ns Hu v Hv.
  destruct (nx_wf_edge _ _ _ _ Hwf Hu Hv) as (t & Ht & _). eauto.
Qed.

Lemma connect_single_cell_step w k a :
  nx_closed (G w) → node_cell_bijection w → sound w →
  _cells (space w) !! k = Some a →
  ∃ w', _connect_single_cell a w = (w', Ok tt) ∧
        _cells (space w') = _cells (space w) ∧
        G w' = G w ∧
        sound w' ∧
        complete_at w' a ∧
        (∀ b, complete_at w b → complete_at w' b).
Proof.
  intros Hwf Hbij Hsound Hka.
  destruct (Hsound k a Hka) as (c & Hc & Hck & Hcs).
  assert (Hk : is_Some (_adj (G w) !! k)).
  { apply elem_of_dom. rewrite <- Hbij. apply elem_of_dom. eauto. }
  destruct Hk as [s Hs].
  assert (Hreg : ∀ v, v ∈ elements s → is_Some (_cells (space w) !! v)).
  { intros v Hv. apply elem_of_elements in Hv.
    pose proof (nx_closed_edge _ _ _ _ Hwf Hs Hv) as Ht.
    apply elem_of_dom. rewrite Hbij. by apply elem_of_dom. }
  destruct (connect_neighbours_loop (elements s) a w c Hc Hreg)
    as (w' & conns & Hrun & Hcells & HG & Hcell & Hother & Hconns).
  assert (Ha' : complete_at w' a).
  { intros c' Hc' v Hv. rewrite Hcell in Hc'. injection Hc' as <-.
    simpl in *. rewrite HG, Hck, (lookup_total_correct _ _ _ Hs) in Hv.
    rewrite Hconns, Hcells. rewrite decide_True; [done|]. by apply elem_of_elements. }
  exists w'. split_and!; try done.
  - unfold _connect_single_cell.
    rewrite (bind_Ok _ _ _ _ _ (liftS_run _ _ _ _ (deref_run _ _ _ Hc))).
    destruct w as [sp g]. simpl in *. unfold mbind, M_bind, G_neighbors. simpl.
    unfold neighbors. rewrite Hck, Hs. exact Hrun.
  - intros k' a' Hk'. rewrite Hcells in Hk'.
    destruct (Hsound k' a' Hk') as (c' & Hc' & Hck' & Hcs').
    destruct (decide (a' = a)) as [->|Hne].
    + rewrite Hc in Hc'. injection Hc' as <-.
      assert (k' = k) as -> by congruence.
      eexists. split; [exact Hcell|]. split; [done|].
      intros v t. simpl. rewrite Hconns, HG, Hcells. case_decide as Hv.
      * intros Hvt. split; [|done].
        rewrite (lookup_total_correct _ _ _ Hs). by apply elem_of_elements.
      * apply Hcs.
    + exists c'. rewrite (Hother a' Hne), HG, Hcells. done.
  - intros b Hb. destruct (decide (b = a)) as [->|Hne]; [done|].
    intros c' Hc' v. rewrite (Hother b Hne) in Hc'. rewrite HG, Hcells. by apply Hb.
Qed.

Lemma connect_cells_loop (la : list addr) : ∀ w,
  nx_closed (G w) → node_cell_bijection w → sound w →
  (∀ a, a ∈ la → ∃ k, _cells (space w) !! k = Some a) →
  ∃ w', for_each la _connect_single_cell w = (w', Ok tt) ∧
        _cells (space w') = _cells (space w) ∧
        G w' = G w ∧
        sound w' ∧
        (∀ a, a ∈ la → complete_at w' a) ∧
        (∀ b, complete_at w b → complete_at w' b).
Proof.
  induction la as [|a la IH]; intros w Hwf Hbij Hsound Hla.
  - exists w. split_and!; try done. intros a Ha. by apply elem_of_nil in Ha.
  - destruct (Hla a) as [k Hk]; [left|].
    destruct (connect_single_cell_step w k a Hwf Hbij Hsound Hk)
      as (w1 & Hrun1 & Hcells1 & HG1 & Hsound1 & Ha1 & Hkeep1).
    destruct (IH w1) as (w' & Hrun & Hcells & HG & Hsound' & Hall & Hkeep).
    { by rewrite HG1. }
    { unfold node_cell_bijection. by rewrite HG1, Hcells1. }
    { done. }
    { intros b Hb. rewrite Hcells1. apply Hla. by right. }
    exists w'. split_and!.
    + rewrite <- Hrun. by apply for_each_cons.
    + by rewrite Hcells.
    + by rewrite HG.
    + done.
    + intros b Hb. apply elem_of_cons in Hb as [->|Hb]; [by apply Hkeep | by apply Hall].
    + intros b Hb. by apply Hkeep, Hkeep1.
Qed.


Lemma elem_of_all_cells (m : gmap K addr) a :
  a ∈ (map_to_list m).*2 ↔ ∃ k, m !! k = Some a.
Proof.
  rewrite list_elem_of_fmap. split.
  - intros ([k a'] & -> & Hka). exists k. by apply elem_of_map_to_list.
  - intros [k Hk]. exists (k, a). split; [done|]. by apply elem_of_map_to_list.
Qed.

Lemma liftS_all_cells_run w :
  liftS all_cells w = (w, Ok ((map_to_list (_cells (space w))).*2)).
Proof. by destruct w. Qed.

Lemma sound_complete_coherent w :
  nx_closed (G w) → node_cell_bijection w → sound w →
  (∀ k a, _cells (space w) !! k = Some a → complete_at w a) →
  coherent w.
Proof.
  intros Hwf Hbij Hsound Hcomplete. split_and!; [done | | done |].
  - intros k a Hka. destruct (Hsound k a Hka) as (c & Hc & Hck & _).
    simpl. by rewrite Hc, <- Hck.
  - intros k a Hka. unfold connections_ok.
    destruct (Hsound k a Hka) as (c & Hc & Hck & Hcs). rewrite Hc. split.
    + apply set_eq. intros v. rewrite elem_of_dom. split.
      * intros [t Ht]. by apply (Hcs v t).
      * intros Hv. rewrite (Hcomplete k a Hka c Hc v) by by rewrite Hck.
        assert (Hk : is_Some (_adj (G w) !! k)).
        { apply elem_of_dom. rewrite <- Hbij. apply elem_of_dom. eauto. }
        destruct Hk as [ns Hns]. rewrite (lookup_total_correct _ _ _ Hns) in Hv.
        pose proof (nx_closed_edge _ _ _ _ Hwf Hns Hv) as Ht.
        apply elem_of_dom. rewrite Hbij. by apply elem_of_dom.
    + intros v t Hvt. by apply (Hcs v t).
Qed.

(** The constructor returns, and the space it builds is coherent with the
    graph it was given. *)
Lemma init_coherent g cap rnd (h : list (Cell K Rng)) :
  nx_closed g →
  ∃ w, __init__ g cap rnd h = (w, Ok tt) ∧ G w = g ∧ coherent w.
Proof.
  intros Hwf. set (w0 := mkWorld (mkCellSpace ∅ h) g).
  destruct (create_loop cap rnd (nodes g) w0) as (w1 & Hrun1 & HG1 & Hfresh & Hdom).
  { intros k a Hka. simpl in Hka. by rewrite lookup_empty in Hka. }
  simpl in HG1, Hdom. rewrite dom_empty_L, union_empty_r_L in Hdom.
  unfold nodes in Hdom. rewrite list_to_set_elements_L in Hdom.
  assert (Hbij1 : node_cell_bijection w1) by (unfold node_cell_bijection; by rewrite HG1).
  assert (Hsound1 : sound w1).
  { intros k a Hka. exists (mkCell k cap rnd ∅). split_and!; [by apply Hfresh | done |].
    intros v t. simpl. by rewrite lookup_empty. }
  destruct (connect_cells_loop ((map_to_list (_cells (space w1))).*2) w1)
    as (w2 & Hrun2 & Hcells2 & HG2 & Hsound2 & Hall & _); [by rewrite HG1 | done | done | |].
  { intros a Ha. by apply elem_of_all_cells. }
  exists w2. split_and!.
  - assert (Hcreate : create_cells cap rnd w0 = (w1, Ok tt)).
    { unfold create_cells. by rewrite (bind_Ok G_nodes _ w0 w0 (nodes g) eq_refl). }
    unfold __init__. fold w0. rewrite (bind_Ok _ _ _ _ _ Hcreate).
    unfold _connect_cells. by rewrite (bind_Ok _ _ _ _ _ (liftS_all_cells_run w1)).
  - by rewrite HG2.
  - apply sound_complete_coherent; [by rewrite HG2, HG1 | | done |].
    + unfold node_cell_bijection. by rewrite HG2, Hcells2.
    + intros k a Hka. apply Hall. apply elem_of_all_cells. exists k. by rewrite <- Hcells2.
Qed.


(** Over an undirected graph the space is consistent. *)
Lemma init_consistent g cap rnd (h : list (Cell K Rng)) :
  nx_wf g →
  ∃ w, __init__ g cap rnd h = (w, Ok tt) ∧ G w = g ∧ consistent w.
Proof.
  intros Hwf.
  destruct (init_coherent g cap rnd h (nx_wf_closed _ Hwf))
    as (w & Hrun & HG & _ & Hok & Hbij & Hec).
  exists w. split_and!; [done | done |]. split_and!; [by rewrite HG | done..].
Qed.

Lemma has_edge_spec g u v :
  has_edge g u v ↔ ∃ ns, _adj g !! u = Some ns ∧ v ∈ ns.
Proof.
  unfold has_edge. destruct (_adj g !! u) as [ns|]; split.
  - intros Hv. apply bool_decide_unpack in Hv. eauto.
  - intros (ns' & [= <-] & Hv). by apply bool_decide_pack.
  - done.
  - by intros (ns' & [=] & _).
Qed.

Lemma elem_of_neighbours g k v : v ∈ _adj g !!! k ↔ has_edge g k v.
Proof.
  rewrite has_edge_spec, lookup_total_alt. destruct (_adj g !! k) as [ns|]; simpl.
  - split; [eauto | by intros (? & [= <-] & ?)].
  - split; [by intros ?%elem_of_empty | by intros (? & [=] & ?)].
Qed.

(** Coherence, read edge by edge: the registered coordinates are the nodes,
    each refers to a cell that carries it, and the cell registered at [k]
    holds a connection labelled [v] exactly when (k, v) is an edge, to the
    cell registered at [v]. *)
Lemma coherent_alt w :
  coherent w ↔
  dom (_cells (space w)) = dom (_adj (G w)) ∧
  ∀ k a, _cells (space w) !! k = Some a →
    ∃ c, heap (space w) !! a = Some c ∧ coordinate c = k ∧
         (∀ v, is_Some (connections c !! v) ↔ has_edge (G w) k v) ∧
         (∀ v t, connections c !! v = Some t → _cells (space w) !! v = Some t).
Proof.
  unfold coherent. split.
  - intros (Hcl & Hok & Hbij & Hec). split; [done|].
    intros k a Hka. specialize (Hok k a Hka). specialize (Hec k a Hka).
    unfold connections_ok in Hec. simpl in Hok.
    destruct (heap (space w) !! a) as [c|]; [|done].
    destruct Hec as [Hdom Htargets]. exists c. split_and!; [done | by injection Hok | | done].
    intros v. by rewrite <- elem_of_dom, Hdom, elem_of_neighbours.
  - intros (Hbij & Hall). split_and!; [ | | done |].
    + intros u ns Hu v Hv.
      assert (Hreg : is_Some (_cells (space w) !! u)).
      { apply elem_of_dom. rewrite Hbij. apply elem_of_dom. eauto. }
      destruct Hreg as [a Ha]. destruct (Hall u a Ha) as (c & _ & _ & Hiff & Htg).
      assert (Hconn : is_Some (connections c !! v)).
      { apply Hiff, has_edge_spec. eauto. }
      destruct Hconn as [t Ht]. apply Htg in Ht.
      apply elem_of_dom. rewrite <- Hbij. apply elem_of_dom. eauto.
    + intros k a Hka. destruct (Hall k a Hka) as (c & Hc & Hck & _). simpl.
      by rewrite Hc, <- Hck.
    + intros k a Hka. destruct (Hall k a Hka) as (c & Hc & Hck & Hiff & Htargets).
      unfold connections_ok. rewrite Hc. split; [|done].
      apply set_eq. intros v. by rewrite elem_of_dom, Hiff, elem_of_neighbours.
Qed.

Lemma nx_wf_has_edge_sym g u v : nx_wf g → has_edge g u v → has_edge g v u.
Proof.
  intros Hwf (ns & Hns & Huv)%has_edge_spec.
  destruct (nx_wf_edge _ _ _ _ Hwf Hns Huv) as (t & Ht & Hu).
  apply has_edge_spec. eauto.
Qed.

Lemma nx_wf_symmetric g :
  nx_wf g ↔ ∀ u v, has_edge g u v → has_edge g v u.
Proof.
  split.
  - intros Hwf u v. by apply nx_wf_has_edge_sym.
  - intros Hsym u ns Hu v Hv. apply Hsym, has_edge_spec. eauto.
Qed.

(** A consistent space is a coherent space whose edges all have their
    reverse. *)
Lemma consistent_coherent w :
  consistent w ↔ (∀ u v, has_edge (G w) u v → has_edge (G w) v u) ∧ coherent w.
Proof.
  unfold consistent, coherent. rewrite nx_wf_symmetric. split.
  - intros (Hsym & ? & ? & ?). split_and!; try done.
    by apply nx_wf_closed, nx_wf_symmetric.
  - intros (Hsym & _ & ? & ? & ?). by split_and!.
Qed.

(** Consistency, read edge by edge. *)
Lemma consistent_alt w :
  consistent w ↔
  (∀ u v, has_edge (G w) u v → has_edge (G w) v u) ∧
  dom (_cells (space w)) = dom (_adj (G w)) ∧
  ∀ k a, _cells (space w) !! k = Some a →
    ∃ c, heap (space w) !! a = Some c ∧ coordinate c = k ∧
         (∀ v, is_Some (connections c !! v) ↔ has_edge (G w) k v) ∧
         (∀ v t, connections c !! v = Some t → _cells (space w) !! v = Some t).
Proof. by rewrite consistent_coherent, coherent_alt. Qed.

(** C1: for every graph, directed or not, the constructor returns and
    registers exactly one cell per node, keyed by the node's identifier:
    the registered coordinates are the nodes of the graph, each of them
    refers to a cell that carries it as its coordinate, there are as many
    cells as nodes, and the empty graph gives the empty space.  The only
    thing asked of the graph is what every graph keeps: a neighbour is a
    node. *)
Theorem init_one_cell_per_node g cap rnd (h : list (Cell K Rng)) :
  nx_closed g →
  ∃ w, __init__ g cap rnd h = (w, Ok tt) ∧
       dom (_cells (space w)) = list_to_set (nodes g) ∧
       size (_cells (space w)) = length (nodes g) ∧
       (∀ n a, _cells (space w) !! n = Some a →
               ∃ c, heap (space w) !! a = Some c ∧ coordinate c = n) ∧
       (nodes g = [] → _cells (space w) = ∅).
Proof.
  intros Hcl.
  destruct (init_coherent g cap rnd h Hcl) as (w & Hrun & HG & _ & Hok & Hbij & _).
  unfold node_cell_bijection in Hbij. rewrite HG in Hbij.
  assert (Hdom : dom (_cells (space w)) = list_to_set (nodes g)).
  { unfold nodes. by rewrite list_to_set_elements_L. }
  exists w. split_and!; [done | done | | |].
  - rewrite <- size_dom, Hbij. done.
  - intros n a Hna. specialize (Hok n a Hna). simpl in Hok.
    destruct (heap (space w) !! a) as [c|]; [|done].
    exists c. split; [done|]. by injection Hok.
  - intros Hnil. apply dom_empty_inv_L. by rewrite Hdom, Hnil.
Qed.

(** C2, as the code has it: for every graph, after construction the cell
    registered at u holds, for every edge (u, v) of the graph, a connection
    labelled v to the cell registered at v; the cell registered at v holds
    the connection back, labelled u, to the cell registered at u exactly
    when (v, u) is an edge of the graph as well, which is so for every edge
    of an undirected graph. *)
Theorem init_connects_along_edges g cap rnd (h : list (Cell K Rng)) :
  nx_closed g →
  ∃ w, __init__ g cap rnd h = (w, Ok tt) ∧
       ∀ u v, has_edge g u v →
         ∃ au av cu cv,
           _cells (space w) !! u = Some au ∧ heap (space w) !! au = Some cu ∧
           _cells (space w) !! v = Some av ∧ heap (space w) !! av = Some cv ∧
           connections cu !! v = Some av ∧
           (connections cv !! u = Some au ↔ has_edge g v u) ∧
           (nx_wf g → connections cv !! u = Some au).
Proof.
  intros Hcl.
  destruct (init_coherent g cap rnd h Hcl) as (w & Hrun & HG & Hco).
  exists w. split; [done|]. intros u v Huv. rewrite <- HG in *.
  apply coherent_alt in Hco as (Hbij & Hall).
  assert (Hforward : ∀ x y, has_edge (G w) x y →
            ∃ ax ay cx, _cells (space w) !! x = Some ax ∧ heap (space w) !! ax = Some cx ∧
                        _cells (space w) !! y = Some ay ∧ connections cx !! y = Some ay).
  { intros x y Hxy.
    assert (Hx : is_Some (_cells (space w) !! x)).
    { apply elem_of_dom. rewrite Hbij. apply elem_of_dom.
      apply has_edge_spec in Hxy as (ns & Hns & _). eauto. }
    destruct Hx as [ax Hax]. destruct (Hall x ax Hax) as (cx & Hcx & _ & Hiff & Htg).
    destruct (proj2 (Hiff y) Hxy) as [ay Hay].
    exists ax, ay, cx. split_and!; try done. by apply (Htg y ay). }
  destruct (Hforward u v Huv) as (au & av & cu & Hau & Hcu & Hav & Hconn).
  destruct (Hall v av Hav) as (cv & Hcv & _ & Hiffv & Htgv).
  assert (Hback : connections cv !! u = Some au ↔ has_edge (G w) v u).
  { split.
    - intros Hvu. apply Hiffv. eauto.
    - intros Hvu. destruct (proj2 (Hiffv u) Hvu) as [t Ht]. rewrite Ht. f_equal.
      apply Htgv in Ht. congruence. }
  exists au, av, cu, cv. split_and!; try done.
  intros Hwf. apply Hback. by apply nx_wf_has_edge_sym.
Qed.

(** ** The mutation methods over the base class of the spec *)

Lemma is_registered_spec s cell :
  is_registered s cell ↔
  ∃ c, heap s !! cell = Some c ∧ _cells s !! coordinate c = Some cell.
Proof.
  unfold is_registered. destruct (heap s !! cell) as [c|]; split.
  - intros Hreg. apply bool_decide_unpack in Hreg. eauto.
  - intros (c' & [= <-] & Hc). by apply bool_decide_pack.
  - done.
  - by intros (c' & [=] & _).
Qed.

(** *** [add_cell] *)

Lemma base_add_cell_run s cell c :
  heap s !! cell = Some c →
  base_add_cell cell s =
    (mkCellSpace (<[coordinate c := cell]> (_cells s)) (heap s), Ok tt).
Proof.
  intros Hc. unfold base_add_cell.
  by rewrite (bind_Ok _ _ _ _ _ (deref_run _ _ _ Hc)).
Qed.

(** What [add_cell] returns for a live cell. *)
Lemma add_cell_run w cell c :
  heap (space w) !! cell = Some c →
  add_cell (base := SpecBase K Rng) cell w =
    (mkWorld (mkCellSpace (<[coordinate c := cell]> (_cells (space w))) (heap (space w)))
       (nx_add_node (coordinate c) (G w)), Ok tt).
Proof.
  intros Hc. unfold add_cell.
  rewrite (super_first _ _ _ _ _ (base_add_cell_run _ _ _ Hc)).
  by rewrite (bind_Ok _ _ _ _ _
    (liftS_run _ (mkWorld _ _) _ _ (deref_run (mkCellSpace _ _) cell c Hc))).
Qed.

Lemma nx_add_node_lookup g n k :
  _adj (nx_add_node n g) !! k =
    if decide (n = k) then Some (default ∅ (_adj g !! n)) else _adj g !! k.
Proof.
  unfold nx_add_node. destruct (_adj g !! n) as [ns|] eqn:Hn; simpl.
  - case_decide; by simplify_eq.
  - rewrite lookup_insert. by case_decide.
Qed.

Lemma nx_add_node_fresh g n :
  _adj g !! n = None → _adj (nx_add_node n g) = <[n := ∅]> (_adj g).
Proof. intros Hn. unfold nx_add_node. by rewrite Hn. Qed.



Lemma nx_add_node_existing g n :
  is_Some (_adj g !! n) → nx_add_node n g = g.
Proof. intros [ns Hn]. unfold nx_add_node. by rewrite Hn. Qed.

(** C6, as the code has it: adding a cell whose coordinate is already
    registered does not fail.  The call returns, the mapping refers to the
    new cell under that coordinate from then on, in place of the cell that
    was registered, nothing else in the mapping and no object changes, and
    the graph, where the coordinate is a node already, is as it was. *)
Theorem add_cell_duplicate_overwrites w cell c other :
  heap (space w) !! cell = Some c →
  _cells (space w) !! coordinate c = Some other →
  ∃ w', add_cell (base := SpecBase K Rng) cell w = (w', Ok tt) ∧
        _cells (space w') !! coordinate c = Some cell ∧
        (∀ k, k ≠ coordinate c → _cells (space w') !! k = _cells (space w) !! k) ∧
        heap (space w') = heap (space w) ∧
        (node_cell_bijection w → G w' = G w).
Proof.
  intros Hc Hk. eexists. split; [by apply add_cell_run|]. simpl. split_and!.
  - by rewrite lookup_insert_eq.
  - intros k Hne. by rewrite lookup_insert_ne.
  - done.
  - intros Hbij. apply nx_add_node_existing.
    apply elem_of_dom. rewrite <- Hbij. apply elem_of_dom. eauto.
Qed.

(** *** [add_connection] *)

Lemma heap_lookup_update (l : list (Cell K Rng)) cell x i c :
  l !! cell = Some c →
  <[cell := x]> l !! i = if decide (i = cell) then Some x else l !! i.
Proof.
  intros Hc. case_decide as Hi.
  - subst i. apply list_lookup_insert_eq. by eapply lookup_lt_Some.
  - by apply list_lookup_insert_ne.
Qed.

Lemma disconnect_run s cell key c :
  heap s !! cell = Some c →
  disconnect cell key s =
    (mkCellSpace (_cells s)
       (<[cell := with_connections c (delete key (connections c))]> (heap s)), Ok tt).
Proof.
  intros Hc. unfold disconnect.
  rewrite (bind_Ok _ _ _ _ _ (deref_run _ _ _ Hc)).
  by apply set_connections_run.
Qed.

Lemma nx_add_node_is_Some g n k :
  is_Some (_adj g !! k) → is_Some (_adj (nx_add_node n g) !! k).
Proof.
  intros Hk. rewrite nx_add_node_lookup. case_decide; [|done].
  subst k. destruct Hk as [ns ->]. eauto.
Qed.

Lemma nx_add_node_self g n : is_Some (_adj (nx_add_node n g) !! n).
Proof. rewrite nx_add_node_lookup. rewrite decide_True by done. eauto. Qed.

Lemma nx_add_edge_has_edge g u v :
  has_edge (nx_add_edge u v g) u v ∧ has_edge (nx_add_edge u v g) v u.
Proof.
  unfold nx_add_edge. set (g' := nx_add_node v (nx_add_node u g)).
  assert (Hu : is_Some (_adj g' !! u)) by apply nx_add_node_is_Some, nx_add_node_self.
  assert (Hv : is_Some (_adj g' !! v)) by apply nx_add_node_self.
  destruct Hu as [su Hu], Hv as [sv Hv].
  split; apply has_edge_spec; simpl.
  - rewrite lookup_alter. case_decide as Hvu.
    + subst v. rewrite lookup_alter_eq, Hu. simpl.
      eexists. split; [done|]. set_solver.
    + rewrite lookup_alter_eq, Hu. simpl.
      eexists. split; [done|]. set_solver.
  - rewrite lookup_alter_eq, lookup_alter. case_decide as Huv.
    + subst v. rewrite Hu. simpl. eexists. split; [done|]. set_solver.
    + rewrite Hv. simpl. eexists. split; [done|]. set_solver.
Qed.


Lemma update_connections_lookup cell f (h : list (Cell K Rng)) i :
  update_connections cell f h !! i =
    if decide (i = cell)
    then (λ c, with_connections c (f (connections c))) <$> h !! i
    else h !! i.
Proof.
  unfold update_connections. destruct (h !! cell) as [c|] eqn:Hc.
  - rewrite (heap_lookup_update _ _ _ _ _ Hc). case_decide; [|done].
    subst i. by rewrite Hc.
  - case_decide; [|done]. subst i. by rewrite Hc.
Qed.

Lemma connect_update s cell other key :
  is_Some (heap s !! cell) →
  connect cell other key s =
    (mkCellSpace (_cells s) (update_connections cell (insert key other) (heap s)), Ok tt).
Proof.
  intros [c Hc]. rewrite (connect_run _ _ _ _ _ Hc).
  unfold update_connections. by rewrite Hc.
Qed.

Lemma disconnect_update s cell key :
  is_Some (heap s !! cell) →
  disconnect cell key s =
    (mkCellSpace (_cells s) (update_connections cell (delete key) (heap s)), Ok tt).
Proof.
  intros [c Hc]. rewrite (disconnect_run _ _ _ _ Hc).
  unfold update_connections. by rewrite Hc.
Qed.

Lemma update_connections_is_Some cell f (h : list (Cell K Rng)) i :
  is_Some (h !! i) → is_Some (update_connections cell f h !! i).
Proof.
  intros [c Hc]. rewrite update_connections_lookup, Hc. case_decide; eauto.
Qed.

Lemma base_add_connection_update s cell1 cell2 c1 c2 :
  heap s !! cell1 = Some c1 → heap s !! cell2 = Some c2 →
  base_add_connection cell1 cell2 s =
    (mkCellSpace (_cells s)
       (update_connections cell2 (insert (coordinate c1) cell1)
          (update_connections cell1 (insert (coordinate c2) cell2) (heap s))), Ok tt).
Proof.
  intros Hc1 Hc2. unfold base_add_connection.
  rewrite (bind_Ok _ _ _ _ _ (deref_run _ _ _ Hc1)).
  rewrite (bind_Ok _ _ _ _ _ (deref_run _ _ _ Hc2)).
  rewrite (bind_Ok _ _ _ _ _ (connect_update s cell1 cell2 (coordinate c2) (mk_is_Some _ _ Hc1))).
  apply (connect_update (mkCellSpace _ _)). simpl.
  apply update_connections_is_Some. eauto.
Qed.

Lemma base_remove_connection_update s cell1 cell2 c1 c2 :
  heap s !! cell1 = Some c1 → heap s !! cell2 = Some c2 →
  base_remove_connection cell1 cell2 s =
    (mkCellSpace (_cells s)
       (update_connections cell2 (delete (coordinate c1))
          (update_connections cell1 (delete (coordinate c2)) (heap s))), Ok tt).
Proof.
  intros Hc1 Hc2. unfold base_remove_connection.
  rewrite (bind_Ok _ _ _ _ _ (deref_run _ _ _ Hc1)).
  rewrite (bind_Ok _ _ _ _ _ (deref_run _ _ _ Hc2)).
  rewrite (bind_Ok _ _ _ _ _ (disconnect_update s cell1 (coordinate c2) (mk_is_Some _ _ Hc1))).
  apply (disconnect_update (mkCellSpace _ _)). simpl.
  apply update_connections_is_Some. eauto.
Qed.

Lemma update_connections_coordinate cell f (h : list (Cell K Rng)) i :
  coordinate <$> update_connections cell f h !! i = coordinate <$> h !! i.
Proof.
  rewrite update_connections_lookup. case_decide; [|done].
  by destruct (h !! i).
Qed.

Lemma is_registered_update (cells : gmap K nat) (h : list (Cell K Rng)) cell f i :
  is_registered (mkCellSpace cells (update_connections cell f h)) i =
  is_registered (mkCellSpace cells h) i.
Proof.
  unfold is_registered. simpl.
  pose proof (update_connections_coordinate cell f h i) as Hco.
  destruct (update_connections cell f h !! i) as [c'|],
    (h !! i) as [c|]; simpl in Hco; try done.
  by injection Hco as ->.
Qed.

Lemma consistent_no_edge_no_connection w cell c k :
  consistent w → is_registered (space w) cell →
  heap (space w) !! cell = Some c →
  ¬ has_edge (G w) (coordinate c) k →
  connections c !! k = None.
Proof.
  intros (Hwf & Hok & Hbij & Hec) Hreg Hc Hno.
  apply is_registered_spec in Hreg as (c' & Hc' & Hk).
  assert (c' = c) as -> by congruence.
  specialize (Hec _ _ Hk). unfold connections_ok in Hec. rewrite Hc in Hec.
  destruct Hec as [Hdom _].
  apply not_elem_of_dom. rewrite Hdom. intros Hin. apply Hno.
  assert (Hnode : is_Some (_adj (G w) !! coordinate c)).
  { apply elem_of_dom. rewrite <- Hbij. apply elem_of_dom. eauto. }
  destruct Hnode as [ns Hns]. rewrite (lookup_total_correct _ _ _ Hns) in Hin.
  apply has_edge_spec. eauto.
Qed.

Lemma registered_node w cell c :
  consistent w → is_registered (space w) cell →
  heap (space w) !! cell = Some c →
  is_Some (_adj (G w) !! coordinate c).
Proof.
  intros (_ & _ & Hbij & _) Hreg Hc.
  apply is_registered_spec in Hreg as (c' & Hc' & Hk).
  assert (c' = c) as -> by congruence.
  apply elem_of_dom. rewrite <- Hbij. apply elem_of_dom. eauto.
Qed.

(** What [add_connection] returns for two live cells. *)
Lemma add_connection_run w cell1 cell2 c1 c2 :
  heap (space w) !! cell1 = Some c1 → heap (space w) !! cell2 = Some c2 →
  add_connection (base := SpecBase K Rng) cell1 cell2 w =
    (mkWorld
       (mkCellSpace (_cells (space w))
          (update_connections cell2 (insert (coordinate c1) cell1)
             (update_connections cell1 (insert (coordinate c2) cell2) (heap (space w)))))
       (nx_add_edge (coordinate c1) (coordinate c2) (G w)), Ok tt).
Proof.
  intros Hc1 Hc2. unfold add_connection.
  rewrite (super_first _ _ _ _ _ (base_add_connection_update _ _ _ _ _ Hc1 Hc2)).
  set (h2 := update_connections cell2 _ _).
  assert (H1 : coordinate <$> h2 !! cell1 = Some (coordinate c1)).
  { unfold h2. by rewrite !update_connections_coordinate, Hc1. }
  assert (H2 : coordinate <$> h2 !! cell2 = Some (coordinate c2)).
  { unfold h2. by rewrite !update_connections_coordinate, Hc2. }
  destruct (h2 !! cell1) as [c1'|] eqn:Hc1'; [|done].
  destruct (h2 !! cell2) as [c2'|] eqn:Hc2'; [|done].
  injection H1 as H1. injection H2 as H2.
  rewrite (bind_Ok _ _ _ _ _
    (liftS_run _ (mkWorld _ _) _ _ (deref_run (mkCellSpace _ h2) cell1 c1' Hc1'))).
  rewrite (bind_Ok _ _ _ _ _
    (liftS_run _ (mkWorld _ _) _ _ (deref_run (mkCellSpace _ h2) cell2 c2' Hc2'))).
  unfold G_add_edge. simpl. by rewrite H1, H2.
Qed.

(** What [remove_connection] returns for two live cells: the cell side has
    dropped both labels by the time the graph is asked. *)
Lemma remove_connection_run w cell1 cell2 c1 c2 :
  heap (space w) !! cell1 = Some c1 → heap (space w) !! cell2 = Some c2 →
  remove_connection (base := SpecBase K Rng) cell1 cell2 w =
    G_remove_edge (coordinate c1) (coordinate c2)
      (mkWorld
         (mkCellSpace (_cells (space w))
            (update_connections cell2 (delete (coordinate c1))
               (update_connections cell1 (delete (coordinate c2)) (heap (space w)))))
         (G w)).
Proof.
  intros Hc1 Hc2. unfold remove_connection.
  rewrite (super_first _ _ _ _ _ (base_remove_connection_update _ _ _ _ _ Hc1 Hc2)).
  set (h2 := update_connections cell2 _ _).
  assert (H1 : coordinate <$> h2 !! cell1 = Some (coordinate c1)).
  { unfold h2. by rewrite !update_connections_coordinate, Hc1. }
  assert (H2 : coordinate <$> h2 !! cell2 = Some (coordinate c2)).
  { unfold h2. by rewrite !update_connections_coordinate, Hc2. }
  destruct (h2 !! cell1) as [c1'|] eqn:Hc1'; [|done].
  destruct (h2 !! cell2) as [c2'|] eqn:Hc2'; [|done].
  injection H1 as H1. injection H2 as H2.
  rewrite (bind_Ok _ _ _ _ _
    (liftS_run _ (mkWorld _ _) _ _ (deref_run (mkCellSpace _ h2) cell1 c1' Hc1'))).
  rewrite (bind_Ok _ _ _ _ _
    (liftS_run _ (mkWorld _ _) _ _ (deref_run (mkCellSpace _ h2) cell2 c2' Hc2'))).
  by rewrite H1, H2.
Qed.

Lemma with_connections_id c : with_connections c (connections c) = c.
Proof. by destruct c. Qed.

Lemma add_connection_heap (h : list (Cell K Rng)) cell1 cell2 c1 c2 :
  h !! cell1 = Some c1 → h !! cell2 = Some c2 →
  ∃ c1' c2',
    update_connections cell2 (insert (coordinate c1) cell1)
      (update_connections cell1 (insert (coordinate c2) cell2) h) !! cell1 = Some c1' ∧
    coordinate c1' = coordinate c1 ∧
    connections c1' !! coordinate c2 = Some cell2 ∧
    update_connections cell2 (insert (coordinate c1) cell1)
      (update_connections cell1 (insert (coordinate c2) cell2) h) !! cell2 = Some c2' ∧
    coordinate c2' = coordinate c2 ∧
    connections c2' !! coordinate c1 = Some cell1.
Proof.
  intros Hc1 Hc2. rewrite !update_connections_lookup, Hc1, Hc2. simpl.
  destruct (decide (cell1 = cell2)) as [->|Hne].
  - assert (c2 = c1) as -> by congruence.
    rewrite !decide_True by done. simpl.
    eexists _, _. split_and!; try done;
      cbn [with_connections connections]; by rewrite lookup_insert_eq.
  - rewrite (decide_False (P := cell2 = cell1)), !decide_True by done. simpl.
    eexists _, _. split_and!; try done;
      cbn [with_connections connections]; by rewrite lookup_insert_eq.
Qed.



(** *** [remove_connection] *)

Lemma nx_add_remove_edge g u v :
  is_Some (_adj g !! u) → is_Some (_adj g !! v) →
  ¬ has_edge g u v → ¬ has_edge g v u →
  nx_remove_edge u v (nx_add_edge u v g) = Ok g.
Proof.
  intros Hu Hv Huv Hvu. unfold nx_remove_edge.
  pose proof (nx_add_edge_has_edge g u v) as [He _].
  apply Is_true_eq_true in He. rewrite He. f_equal.
  unfold nx_add_edge. rewrite (nx_add_node_existing g u Hu), (nx_add_node_existing g v Hv).
  destruct g as [adj]. simpl in *. f_equal. apply map_eq. intros k.
  rewrite !lookup_alter.
  rewrite has_edge_spec in Huv, Hvu. simpl in *.
  destruct Hu as [su Hu], Hv as [sv Hv].
  repeat case_decide; simplify_eq; rewrite ?Hu, ?Hv; simpl; try done.
  all: try (destruct (adj !! k); done).
  - f_equal. assert (k ∉ su) by (intros ?; apply Huv; eauto). set_solver.
  - f_equal. assert (u ∉ sv) by (intros ?; apply Hvu; eauto). set_solver.
  - f_equal. assert (v ∉ su) by (intros ?; apply Huv; eauto). set_solver.
Qed.


Lemma nx_add_edge_lookup g u v k :
  _adj (nx_add_edge u v g) !! k =
    if decide (k = v)
    then Some ({[u]} ∪ (if decide (k = u) then {[v]} ∪ default ∅ (_adj g !! k)
                        else default ∅ (_adj g !! k)))
    else if decide (k = u) then Some ({[v]} ∪ default ∅ (_adj g !! k))
    else _adj g !! k.
Proof.
  unfold nx_add_edge. simpl. rewrite !lookup_alter, !nx_add_node_lookup.
  repeat case_decide; simplify_eq; simpl; try done.
Qed.

Lemma has_edge_default g x y :
  has_edge g x y ↔ y ∈ default ∅ (_adj g !! x).
Proof.
  rewrite has_edge_spec. destruct (_adj g !! x) as [ns|]; simpl.
  - split; [by intros (? & [= <-] & ?) | eauto].
  - split; [by intros (? & [=] & ?) | by intros ?%elem_of_empty].
Qed.

Lemma has_edge_add_edge g u v x y :
  has_edge (nx_add_edge u v g) x y ↔
  has_edge g x y ∨ (x = u ∧ y = v) ∨ (x = v ∧ y = u).
Proof.
  rewrite !has_edge_default, nx_add_edge_lookup.
  repeat case_decide; simplify_eq; simpl; set_solver.
Qed.

Lemma dom_add_edge g u v :
  dom (_adj (nx_add_edge u v g)) = {[u; v]} ∪ dom (_adj g).
Proof.
  apply set_eq. intros k. rewrite elem_of_dom, nx_add_edge_lookup.
  rewrite elem_of_union, elem_of_dom.
  repeat case_decide; simplify_eq; split; try (intros; eauto; set_solver).
Qed.

Lemma has_edge_remove_edge g u v g' x y :
  nx_remove_edge u v g = Ok g' →
  (has_edge g' x y ↔ has_edge g x y ∧ ¬ (x = u ∧ y = v) ∧ ¬ (x = v ∧ y = u)).
Proof.
  unfold nx_remove_edge. destruct (has_edge g u v); [|done]. intros [= <-].
  rewrite !has_edge_default. simpl. rewrite !lookup_alter.
  repeat case_decide; simplify_eq; destruct (_adj g !! _) as [ns|]; simpl; set_solver.
Qed.

Lemma dom_remove_edge g u v g' :
  nx_remove_edge u v g = Ok g' → dom (_adj g') = dom (_adj g).
Proof.
  unfold nx_remove_edge. destruct (has_edge g u v); [|done]. intros [= <-].
  simpl. by rewrite !dom_alter_L.
Qed.

Lemma update_connections_id cell f (h : list (Cell K Rng)) c :
  h !! cell = Some c → f (connections c) = connections c →
  update_connections cell f h = h.
Proof.
  intros Hc Hf. unfold update_connections.
  by rewrite Hc, Hf, with_connections_id, (list_insert_id _ _ _ Hc).
Qed.

Lemma remove_connection_heap (h : list (Cell K Rng)) cell1 cell2 c1 c2 :
  h !! cell1 = Some c1 → h !! cell2 = Some c2 →
  ∃ c1' c2',
    update_connections cell2 (delete (coordinate c1))
      (update_connections cell1 (delete (coordinate c2)) h) !! cell1 = Some c1' ∧
    coordinate c1' = coordinate c1 ∧
    connections c1' !! coordinate c2 = None ∧
    update_connections cell2 (delete (coordinate c1))
      (update_connections cell1 (delete (coordinate c2)) h) !! cell2 = Some c2' ∧
    coordinate c2' = coordinate c2 ∧
    connections c2' !! coordinate c1 = None.
Proof.
  intros Hc1 Hc2. rewrite !update_connections_lookup, Hc1, Hc2. simpl.
  destruct (decide (cell1 = cell2)) as [->|Hne].
  - assert (c2 = c1) as -> by congruence.
    rewrite !decide_True by done. simpl.
    eexists _, _. split_and!; try done;
      cbn [with_connections connections]; by rewrite lookup_delete_eq.
  - rewrite (decide_False (P := cell2 = cell1)), !decide_True by done. simpl.
    eexists _, _. split_and!; try done;
      cbn [with_connections connections]; by rewrite lookup_delete_eq.
Qed.

(** Removing a connection that is not there: the cell side finds nothing to
    drop, the graph raises, and the state is as it was. *)
Lemma remove_connection_absent w cell1 cell2 c1 c2 :
  heap (space w) !! cell1 = Some c1 → heap (space w) !! cell2 = Some c2 →
  connections c1 !! coordinate c2 = None →
  connections c2 !! coordinate c1 = None →
  ¬ has_edge (G w) (coordinate c1) (coordinate c2) →
  remove_connection (base := SpecBase K Rng) cell1 cell2 w = (w, Raise NetworkXError).
Proof.
  intros Hc1 Hc2 Hn1 Hn2 Hno.
  rewrite (remove_connection_run _ _ _ _ _ Hc1 Hc2).
  rewrite (update_connections_id cell1 _ _ c1 Hc1) by by apply delete_id.
  rewrite (update_connections_id cell2 _ _ c2 Hc2) by by apply delete_id.
  unfold G_remove_edge, nx_remove_edge. cbn [space G].
  destruct (has_edge (G w) (coordinate c1) (coordinate c2)); [by destruct Hno|].
  by destruct w as [[] ?].
Qed.

Lemma registered_key s cell c :
  is_registered s cell → heap s !! cell = Some c →
  _cells s !! coordinate c = Some cell.
Proof.
  intros (c' & Hc' & Hk)%is_registered_spec Hc. by assert (c' = c) as -> by congruence.
Qed.

(** Removing the connection of two connected cells keeps the space
    consistent. *)
Lemma remove_connection_connected w cell1 cell2 c1 c2 :
  consistent w →
  is_registered (space w) cell1 → is_registered (space w) cell2 →
  heap (space w) !! cell1 = Some c1 → heap (space w) !! cell2 = Some c2 →
  has_edge (G w) (coordinate c1) (coordinate c2) →
  ∃ w', remove_connection (base := SpecBase K Rng) cell1 cell2 w = (w', Ok tt) ∧
        ¬ has_edge (G w') (coordinate c1) (coordinate c2) ∧
        ¬ has_edge (G w') (coordinate c2) (coordinate c1) ∧
        consistent w'.
Proof.
  intros Hcons Hr1 Hr2 Hc1 Hc2 Hedge.
  pose proof (registered_key _ _ _ Hr1 Hc1) as Hk1.
  pose proof (registered_key _ _ _ Hr2 Hc2) as Hk2.
  apply consistent_alt in Hcons as (Hsym & Hbij & Hall).
  destruct (Hall _ _ Hk1) as (d1 & Hd1 & _ & Hiff1 & _).
  destruct (Hall _ _ Hk2) as (d2 & Hd2 & _ & Hiff2 & _).
  assert (d1 = c1) as -> by congruence. assert (d2 = c2) as -> by congruence.
  rewrite (remove_connection_run _ _ _ _ _ Hc1 Hc2).
  destruct (nx_remove_edge (coordinate c1) (coordinate c2) (G w)) as [g'|e] eqn:Hrm.
  2: { unfold nx_remove_edge in Hrm. apply Is_true_eq_true in Hedge.
       by rewrite Hedge in Hrm. }
  unfold G_remove_edge. cbn [space G]. rewrite Hrm.
  eexists. split; [done|]. cbn [space G _cells heap].
  split; [rewrite (has_edge_remove_edge _ _ _ _ _ _ Hrm); naive_solver|].
  split; [rewrite (has_edge_remove_edge _ _ _ _ _ _ Hrm); naive_solver|].
  apply consistent_alt. cbn [space G _cells heap]. split_and!.
  - intros u v. rewrite !(has_edge_remove_edge _ _ _ _ _ _ Hrm). naive_solver.
  - by rewrite (dom_remove_edge _ _ _ _ Hrm).
  - intros k a Hka. destruct (Hall k a Hka) as (d & Hd & Hdk & Hiff & Htg).
    rewrite !update_connections_lookup, Hd.
    assert (Ha1 : a = cell1 ↔ k = coordinate c1).
    { split; [intros -> | intros ->]; congruence. }
    assert (Ha2 : a = cell2 ↔ k = coordinate c2).
    { split; [intros -> | intros ->]; congruence. }
    repeat case_decide; simpl; eexists; (split; [done|]);
      cbn [with_connections coordinate connections]; (split; [done|]); split.
    all: try (intros v; rewrite (has_edge_remove_edge _ _ _ _ _ _ Hrm), <- Hiff,
                ?lookup_delete_is_Some; naive_solver).
    all: intros v t; rewrite ?lookup_delete_Some; naive_solver.
Qed.


Lemma nx_add_edge_existing g u v :
  has_edge g u v → has_edge g v u → nx_add_edge u v g = g.
Proof.
  intros (su & Hsu & Hv)%has_edge_spec (sv & Hsv & Hu)%has_edge_spec.
  assert (Hadj : _adj (nx_add_edge u v g) = _adj g).
  { apply map_eq. intros k. rewrite nx_add_edge_lookup.
    destruct (decide (k = v)) as [->|Hkv]; [destruct (decide (v = u)) as [->|Hvu]|
      destruct (decide (k = u)) as [->|Hku]].
    - rewrite Hsu. simpl. f_equal. set_solver.
    - rewrite Hsv. simpl. f_equal. set_solver.
    - rewrite Hsu. simpl. f_equal. set_solver.
    - done. }
  destruct g as [adj]. unfold nx_add_edge in *. simpl in Hadj. by rewrite Hadj.
Qed.

(** Connecting two cells that are connected already changes nothing. *)
Lemma add_connection_connected w cell1 cell2 c1 c2 :
  consistent w →
  is_registered (space w) cell1 → is_registered (space w) cell2 →
  heap (space w) !! cell1 = Some c1 → heap (space w) !! cell2 = Some c2 →
  has_edge (G w) (coordinate c1) (coordinate c2) →
  add_connection (base := SpecBase K Rng) cell1 cell2 w = (w, Ok tt).
Proof.
  intros Hcons Hr1 Hr2 Hc1 Hc2 Hedge.
  pose proof (registered_key _ _ _ Hr1 Hc1) as Hk1.
  pose proof (registered_key _ _ _ Hr2 Hc2) as Hk2.
  rewrite (add_connection_run _ _ _ _ _ Hc1 Hc2).
  apply consistent_alt in Hcons as (Hsym & Hbij & Hall).
  destruct (Hall _ _ Hk1) as (d1 & Hd1 & _ & Hiff1 & Htg1).
  destruct (Hall _ _ Hk2) as (d2 & Hd2 & _ & Hiff2 & Htg2).
  assert (d1 = c1) as -> by congruence. assert (d2 = c2) as -> by congruence.
  assert (Hconn1 : connections c1 !! coordinate c2 = Some cell2).
  { destruct (proj2 (Hiff1 _) Hedge) as [t Ht]. rewrite Ht. f_equal.
    apply Htg1 in Ht. congruence. }
  assert (Hconn2 : connections c2 !! coordinate c1 = Some cell1).
  { destruct (proj2 (Hiff2 _) (Hsym _ _ Hedge)) as [t Ht]. rewrite Ht. f_equal.
    apply Htg2 in Ht. congruence. }
  rewrite (nx_add_edge_existing _ _ _ Hedge (Hsym _ _ Hedge)).
  rewrite (update_connections_id cell1 _ _ c1 Hc1) by by apply insert_id.
  rewrite (update_connections_id cell2 _ _ c2 Hc2) by by apply insert_id.
  by destruct w as [[] ?].
Qed.

Lemma G_remove_edge_space u v (w0 w' : World K Rng) r :
  G_remove_edge u v w0 = (w', r) → space w' = space w0.
Proof.
  unfold G_remove_edge. destruct (nx_remove_edge u v (G w0)); by intros [= <- _].
Qed.

(** Connecting two cells that are not connected and disconnecting them
    again gives the state back. *)
Lemma add_remove_connection_restores w cell1 cell2 c1 c2 :
  consistent w →
  is_registered (space w) cell1 → is_registered (space w) cell2 →
  heap (space w) !! cell1 = Some c1 → heap (space w) !! cell2 = Some c2 →
  ¬ has_edge (G w) (coordinate c1) (coordinate c2) →
  ∃ w1, add_connection (base := SpecBase K Rng) cell1 cell2 w = (w1, Ok tt) ∧
        remove_connection (base := SpecBase K Rng) cell1 cell2 w1 = (w, Ok tt).
Proof.
  intros Hcons Hr1 Hr2 Hc1 Hc2 Hno.
  assert (Hno' : ¬ has_edge (G w) (coordinate c2) (coordinate c1)).
  { intros He. apply Hno. apply nx_wf_has_edge_sym; [by destruct Hcons | done]. }
  pose proof (consistent_no_edge_no_connection _ _ _ _ Hcons Hr1 Hc1 Hno) as Hn1.
  pose proof (consistent_no_edge_no_connection _ _ _ _ Hcons Hr2 Hc2 Hno') as Hn2.
  pose proof (registered_node _ _ _ Hcons Hr1 Hc1) as Hnode1.
  pose proof (registered_node _ _ _ Hcons Hr2 Hc2) as Hnode2.
  eexists. split; [by apply add_connection_run|].
  set (h2 := update_connections cell2 (insert (coordinate c1) cell1)
               (update_connections cell1 (insert (coordinate c2) cell2) (heap (space w)))).
  destruct (add_connection_heap _ _ _ _ _ Hc1 Hc2)
    as (c1' & c2' & Hc1' & Hco1 & _ & Hc2' & Hco2 & _).
  fold h2 in Hc1', Hc2'.
  rewrite (remove_connection_run (mkWorld (mkCellSpace _ h2) _) cell1 cell2 c1' c2');
    [| done | done].
  unfold G_remove_edge. simpl. rewrite Hco1, Hco2.
  rewrite (nx_add_remove_edge _ _ _ Hnode1 Hnode2 Hno Hno').
  destruct w as [[cells h] g]. simpl in *. do 3 f_equal.
  apply list_eq. intros i. unfold h2. rewrite !update_connections_lookup.
  repeat case_decide; simplify_eq; rewrite ?Hc1, ?Hc2; simpl; try done.
  all: f_equal; (etrans; [|by apply with_connections_id]); unfold with_connections;
    cbn [coordinate capacity random connections]; f_equal.
  + rewrite !delete_insert_eq. rewrite (delete_id (connections c1)) by done.
    by apply delete_id.
  + by apply delete_insert_id.
  + by apply delete_insert_id.
Qed.

(** C8, as the code has it: in a consistent space, for two registered cells,
    what [add_connection] followed by [remove_connection] does depends on
    whether the two coordinates are joined by an edge.  When they are not,
    the pair of calls returns to the very state the space started from,
    graph and connections alike, and one more [remove_connection] raises
    the graph's error and changes nothing.  When they are, [add_connection]
    changes nothing, and [remove_connection] takes away the edge and the
    two connections that were there before, leaving a consistent space in
    which one more [remove_connection] raises the graph's error and changes
    nothing. *)
Theorem add_remove_connection_round_trip w cell1 cell2 c1 c2 :
  consistent w →
  is_registered (space w) cell1 → is_registered (space w) cell2 →
  heap (space w) !! cell1 = Some c1 → heap (space w) !! cell2 = Some c2 →
  (¬ has_edge (G w) (coordinate c1) (coordinate c2) →
     ∃ w1, add_connection (base := SpecBase K Rng) cell1 cell2 w = (w1, Ok tt) ∧
           remove_connection (base := SpecBase K Rng) cell1 cell2 w1 = (w, Ok tt) ∧
           remove_connection (base := SpecBase K Rng) cell1 cell2 w =
             (w, Raise NetworkXError)) ∧
  (has_edge (G w) (coordinate c1) (coordinate c2) →
     add_connection (base := SpecBase K Rng) cell1 cell2 w = (w, Ok tt) ∧
     ∃ w2 c1' c2',
       remove_connection (base := SpecBase K Rng) cell1 cell2 w = (w2, Ok tt) ∧
       ¬ has_edge (G w2) (coordinate c1) (coordinate c2) ∧
       ¬ has_edge (G w2) (coordinate c2) (coordinate c1) ∧
       heap (space w2) !! cell1 = Some c1' ∧ connections c1' !! coordinate c2 = None ∧
       heap (space w2) !! cell2 = Some c2' ∧ connections c2' !! coordinate c1 = None ∧
       consistent w2 ∧
       remove_connection (base := SpecBase K Rng) cell1 cell2 w2 =
         (w2, Raise NetworkXError)).
Proof.
  intros Hcons Hr1 Hr2 Hc1 Hc2. split.
  - intros Hno.
    destruct (add_remove_connection_restores _ _ _ _ _ Hcons Hr1 Hr2 Hc1 Hc2 Hno)
      as (w1 & Hadd & Hrm).
    exists w1. split_and!; [done | done |].
    apply (remove_connection_absent _ _ _ c1 c2); try done.
    + by apply (consistent_no_edge_no_connection w cell1).
    + apply (consistent_no_edge_no_connection w cell2); try done.
      intros He. apply Hno. apply nx_wf_has_edge_sym; [by destruct Hcons | done].
  - intros Hedge. split; [by apply (add_connection_connected _ _ _ c1 c2)|].
    destruct (remove_connection_connected _ _ _ _ _ Hcons Hr1 Hr2 Hc1 Hc2 Hedge)
      as (w2 & Hrun & Hno1 & Hno2 & Hcons2).
    destruct (remove_connection_heap _ _ _ _ _ Hc1 Hc2)
      as (c1' & c2' & H1 & Hco1 & Hn1 & H2 & Hco2 & Hn2).
    assert (Hspace : space w2 =
      mkCellSpace (_cells (space w))
        (update_connections cell2 (delete (coordinate c1))
           (update_connections cell1 (delete (coordinate c2)) (heap (space w))))).
    { rewrite (remove_connection_run _ _ _ _ _ Hc1 Hc2) in Hrun.
      by apply G_remove_edge_space in Hrun. }
    assert (Hheap : heap (space w2) =
      update_connections cell2 (delete (coordinate c1))
        (update_connections cell1 (delete (coordinate c2)) (heap (space w))))
      by by rewrite Hspace.
    rewrite <- Hheap in H1, H2.
    exists w2, c1', c2'. split_and!; try done.
    apply (remove_connection_absent _ _ _ c1' c2'); try done.
    + by rewrite Hco2.
    + by rewrite Hco1.
    + by rewrite Hco1, Hco2.
Qed.

(** *** [remove_cell] *)

Lemma nx_remove_node_lookup g n g' k :
  nx_remove_node n g = Ok g' →
  _adj g' !! k = if decide (n = k) then None else (λ ns, ns ∖ {[n]}) <$> _adj g !! k.
Proof.
  unfold nx_remove_node. destruct (_adj g !! n); [|done]. intros [= <-]. simpl.
  rewrite lookup_delete. case_decide; [done|]. by rewrite lookup_fmap.
Qed.

Lemma has_edge_remove_node g n g' x y :
  nx_remove_node n g = Ok g' →
  (has_edge g' x y ↔ has_edge g x y ∧ x ≠ n ∧ y ≠ n).
Proof.
  intros Hrm. rewrite !has_edge_default, (nx_remove_node_lookup _ _ _ _ Hrm).
  case_decide; simplify_eq; destruct (_adj g !! x) as [ns|]; simpl; set_solver.
Qed.

Lemma dom_remove_node g n g' :
  nx_remove_node n g = Ok g' → dom (_adj g') = dom (_adj g) ∖ {[n]}.
Proof.
  unfold nx_remove_node. destruct (_adj g !! n); [|done]. intros [= <-].
  simpl. by rewrite dom_delete_L, dom_fmap_L.
Qed.

Lemma pop_cell_run s k a :
  _cells s !! k = Some a →
  pop_cell k s = (mkCellSpace (delete k (_cells s)) (heap s), Ok tt).
Proof. intros Hk. unfold pop_cell. by rewrite Hk. Qed.

Lemma pop_cell_missing s k :
  _cells s !! k = None → pop_cell k s = (s, Raise KeyError).
Proof. intros Hk. unfold pop_cell. by rewrite Hk. Qed.

(** One round of the loop of the base class: the neighbour drops the label
    of the removed cell, the removed cell drops the label of the
    neighbour. *)
Lemma disconnect_both_run s cell kc neighbor d :
  heap s !! neighbor = Some d → is_Some (heap s !! cell) →
  (d' ← deref neighbor;
   disconnect neighbor kc ;;
   disconnect cell (coordinate d')) s =
  (mkCellSpace (_cells s)
     (update_connections cell (delete (coordinate d))
        (update_connections neighbor (delete kc) (heap s))), Ok tt).
Proof.
  intros Hd Hcell.
  rewrite (bind_Ok _ _ _ _ _ (deref_run _ _ _ Hd)).
  rewrite (bind_Ok _ _ _ _ _ (disconnect_update s neighbor kc (mk_is_Some _ _ Hd))).
  apply (disconnect_update (mkCellSpace _ _)). simpl.
  by apply update_connections_is_Some.
Qed.

(** The loop of the base class over the cells the removed cell points at:
    it only deletes connections; of a cell in the list it deletes the label
    of the removed cell, of the removed cell the labels that are coordinates
    of cells in the list, and nothing else. *)
Lemma disconnect_loop kc cell (la : list nat) : ∀ s,
  (∀ nb, nb ∈ la → is_Some (heap s !! nb)) → is_Some (heap s !! cell) →
  ∃ h',
    for_each la (λ neighbor,
      d ← deref neighbor;
      disconnect neighbor kc ;;
      disconnect cell (coordinate d)) s = (mkCellSpace (_cells s) h', Ok tt) ∧
    (∀ i, coordinate <$> h' !! i = coordinate <$> heap s !! i) ∧
    (∀ i d d', heap s !! i = Some d → h' !! i = Some d' →
       (∀ v t, connections d' !! v = Some t → connections d !! v = Some t) ∧
       (∀ v t, connections d !! v = Some t →
               (i ∈ la → v ≠ kc) →
               (i = cell → ∀ nb, nb ∈ la → coordinate <$> heap s !! nb ≠ Some v) →
               connections d' !! v = Some t) ∧
       (i ∈ la → connections d' !! kc = None)).
Proof.
  induction la as [|nb la IH]; intros s Hlive Hcell.
  - exists (heap s). split_and!; [by destruct s | done |].
    intros i d d' Hd Hd'. assert (d' = d) as -> by congruence.
    split_and!; [done | done |]. by intros ?%elem_of_nil.
  - destruct (Hlive nb) as [dn Hdn]; [left|].
    set (h1 := update_connections cell (delete (coordinate dn))
                 (update_connections nb (delete kc) (heap s))).
    destruct (IH (mkCellSpace (_cells s) h1)) as (h' & Hrun & Hcoord & Hconn).
    { intros b Hb. simpl. unfold h1. do 2 apply update_connections_is_Some.
      apply Hlive. by right. }
    { simpl. unfold h1. by do 2 apply update_connections_is_Some. }
    simpl in Hcoord, Hconn.
    assert (Hcoord1 : ∀ i, coordinate <$> h1 !! i = coordinate <$> heap s !! i).
    { intros i. unfold h1. by rewrite !update_connections_coordinate. }
    exists h'. split_and!.
    + etrans; [|exact Hrun]. by apply for_each_cons, disconnect_both_run.
    + intros i. by rewrite Hcoord, Hcoord1.
    + intros i d d' Hd Hd'.
      assert (Hd1 : h1 !! i =
        Some (with_connections d
                ((if decide (i = cell) then delete (coordinate dn) else id)
                   ((if decide (i = nb) then delete kc else id) (connections d))))).
      { unfold h1. rewrite !update_connections_lookup, Hd.
        destruct (decide (i = cell)), (decide (i = nb)); simpl;
          by rewrite ?with_connections_id. }
      destruct (Hconn i _ d' Hd1 Hd') as (Ha & Hb & Hc).
      cbn [with_connections connections] in Ha, Hb, Hc.
      assert (Hsub : ∀ v t,
        (if decide (i = cell) then delete (coordinate dn) else id)
          ((if decide (i = nb) then delete kc else id) (connections d)) !! v = Some t →
        connections d !! v = Some t).
      { intros v t.
        destruct (decide (i = cell)), (decide (i = nb)); simpl;
          rewrite ?lookup_delete_Some; naive_solver. }
      split_and!.
      * intros v t Hv. by apply Hsub, Ha.
      * intros v t Hv Hkc Hlab. apply Hb.
        -- assert (Hn1 : i = nb → kc ≠ v).
           { intros -> <-. by apply Hkc; [left|]. }
           assert (Hn2 : i = cell → coordinate dn ≠ v).
           { intros Hi <-. apply (Hlab Hi nb); [by left|]. by rewrite Hdn. }
           destruct (decide (i = cell)), (decide (i = nb)); simpl;
             rewrite ?lookup_delete_Some; naive_solver.
        -- intros Hi. apply Hkc. by right.
        -- intros Hi b Hb'. rewrite Hcoord1. apply Hlab; [done | by right].
      * intros [->|Hi]%elem_of_cons; [|by apply Hc].
        destruct (connections d' !! kc) as [t|] eqn:Ht; [|done].
        apply Ha in Ht. rewrite (decide_True (P := nb = nb)) in Ht by done.
        destruct (decide (nb = cell)); simpl in Ht;
          rewrite ?lookup_delete_Some in Ht; naive_solver.
Qed.

Lemma base_remove_cell_run s cell c a :
  heap s !! cell = Some c → _cells s !! coordinate c = Some a →
  (∀ v nb, connections c !! v = Some nb → is_Some (heap s !! nb)) →
  ∃ h',
    base_remove_cell cell s = (mkCellSpace (delete (coordinate c) (_cells s)) h', Ok tt) ∧
    (∀ i, coordinate <$> h' !! i = coordinate <$> heap s !! i) ∧
    (∀ i d d', heap s !! i = Some d → h' !! i = Some d' →
       (∀ v t, connections d' !! v = Some t → connections d !! v = Some t) ∧
       (∀ v t, connections d !! v = Some t →
               ((∃ l, connections c !! l = Some i) → v ≠ coordinate c) →
               i ≠ cell →
               connections d' !! v = Some t) ∧
       ((∃ l, connections c !! l = Some i) → connections d' !! coordinate c = None)).
Proof.
  intros Hc Hk Hlive.
  set (s1 := mkCellSpace (delete (coordinate c) (_cells s)) (heap s)).
  destruct (disconnect_loop (coordinate c) cell ((map_to_list (connections c)).*2) s1)
    as (h' & Hrun & Hcoord & Hconn).
  { intros nb [v Hv]%elem_of_all_cells. by apply (Hlive v). }
  { simpl. eauto. }
  exists h'. split_and!.
  - unfold base_remove_cell.
    rewrite (bind_Ok _ _ _ _ _ (deref_run _ _ _ Hc)).
    rewrite (bind_Ok _ _ _ _ _ (pop_cell_run _ _ _ Hk)). exact Hrun.
  - done.
  - intros i d d' Hd Hd'. destruct (Hconn i d d' Hd Hd') as (Ha & Hb & Hc').
    split_and!; [done | |].
    + intros v t Hv Hnb Hne. apply Hb; [done | | done].
      intros Hi. apply Hnb. by apply elem_of_all_cells.
    + intros Hi. apply Hc'. by apply elem_of_all_cells.
Qed.

(** Removing a registered cell from a consistent space. *)
Lemma remove_cell_consistent w cell c :
  consistent w →
  is_registered (space w) cell →
  heap (space w) !! cell = Some c →
  ∃ w', remove_cell (base := SpecBase K Rng) cell w = (w', Ok tt) ∧
        _cells (space w') = delete (coordinate c) (_cells (space w)) ∧
        nx_remove_node (coordinate c) (G w) = Ok (G w') ∧
        (∀ i, coordinate <$> heap (space w') !! i = coordinate <$> heap (space w) !! i) ∧
        (∀ k a d v t,
           _cells (space w') !! k = Some a → heap (space w') !! a = Some d →
           connections d !! v = Some t →
           v ≠ coordinate c ∧ t ≠ cell ∧ _cells (space w') !! v = Some t) ∧
        consistent w'.
Proof.
  intros Hcons Hreg Hc.
  pose proof (registered_node _ _ _ Hcons Hreg Hc) as [nc Hnode].
  pose proof (registered_key _ _ _ Hreg Hc) as Hk.
  pose proof Hcons as (Hsym & Hdom & Hall)%consistent_alt.
  destruct (Hall _ _ Hk) as (c0 & Hc0 & _ & Hiffc & Htgc).
  assert (c0 = c) as -> by congruence. clear Hc0.
  assert (Hlive : ∀ k a, _cells (space w) !! k = Some a →
                         ∃ d, heap (space w) !! a = Some d ∧ coordinate d = k).
  { intros k a Hka. destruct (Hall _ _ Hka) as (d & Hd & Hkd & _). eauto. }
  destruct (base_remove_cell_run (space w) cell c cell Hc Hk)
    as (h' & Hbase & Hcoord & Hconn).
  { intros v nb Hv. destruct (Hlive _ _ (Htgc _ _ Hv)) as (d & Hd & _). eauto. }
  assert (Hcell : ∃ c', h' !! cell = Some c' ∧ coordinate c' = coordinate c).
  { specialize (Hcoord cell). rewrite Hc in Hcoord. simpl in Hcoord.
    destruct (h' !! cell) as [c'|]; [|done]. exists c'. split; [done|].
    simpl in Hcoord. congruence. }
  destruct Hcell as (c' & Hc' & Hcc').
  assert (Hrm : nx_remove_node (coordinate c) (G w) =
                Ok (mkGraph (delete (coordinate c)
                               ((λ ns, ns ∖ {[coordinate c]}) <$> _adj (G w))))).
  { unfold nx_remove_node. by rewrite Hnode. }
  set (g' := mkGraph _) in Hrm.
  set (w' := mkWorld (mkCellSpace (delete (coordinate c) (_cells (space w))) h') g').
  assert (Hrun : remove_cell (base := SpecBase K Rng) cell w = (w', Ok tt)).
  { unfold remove_cell. rewrite (super_first _ _ _ _ _ Hbase).
    rewrite (bind_Ok _ _ _ _ _
      (liftS_run _ (mkWorld _ _) _ _ (deref_run (mkCellSpace _ h') cell c' Hc'))).
    unfold G_remove_node. simpl. rewrite Hcc'. by rewrite Hrm. }
  (* what a remaining registered cell holds afterwards *)
  assert (Hrest : ∀ k a, k ≠ coordinate c → _cells (space w) !! k = Some a →
    ∃ d', h' !! a = Some d' ∧ coordinate d' = k ∧
          (∀ v, is_Some (connections d' !! v) ↔
                has_edge (G w) k v ∧ v ≠ coordinate c) ∧
          (∀ v t, connections d' !! v = Some t →
                  v ≠ coordinate c ∧ _cells (space w) !! v = Some t)).
  { intros k a Hne Hka.
    destruct (Hall _ _ Hka) as (d & Hd & Hkd & Hiff & Htg).
    assert (Hd' : ∃ d', h' !! a = Some d' ∧ coordinate d' = k).
    { specialize (Hcoord a). rewrite Hd in Hcoord. simpl in Hcoord.
      destruct (h' !! a) as [d'|]; [|done]. exists d'. split; [done|].
      simpl in Hcoord. congruence. }
    destruct Hd' as (d' & Hd' & Hkd').
    destruct (Hconn a d d' Hd Hd') as (Ha & Hb & Hdel).
    assert (Hacell : a ≠ cell).
    { intros ->. apply Hne. congruence. }
    assert (Hgone : ∀ v t, connections d' !! v = Some t → v ≠ coordinate c).
    { intros v t Hvt ->.
      assert (Hedge : has_edge (G w) k (coordinate c)).
      { apply Hiff. eexists. by apply Ha. }
      apply Hsym, Hiffc in Hedge as [t' Ht'].
      pose proof (Htgc _ _ Ht') as Hreg'.
      assert (t' = a) as -> by congruence.
      rewrite Hdel in Hvt; [done | eauto]. }
    exists d'. split_and!; [done | done | |].
    - intros v. split.
      + intros [t Hvt]. split; [|by eapply Hgone].
        apply Hiff. eexists. by apply Ha.
      + intros [[t Hvt]%Hiff Hvne]. exists t. by apply Hb.
    - intros v t Hvt. split; [by eapply Hgone|]. by apply Htg, Ha. }
  assert (Hcons' : consistent w').
  { apply consistent_alt. split_and!.
    - intros u v. unfold w'. cbn [G].
      rewrite !(has_edge_remove_node _ _ _ _ _ Hrm). naive_solver.
    - unfold w'. cbn [space G _cells].
      by rewrite dom_delete_L, (dom_remove_node _ _ _ Hrm), Hdom.
    - intros k a. unfold w'. cbn [space G _cells heap].
      intros [Hne Hka]%lookup_delete_Some.
      destruct (Hrest k a) as (d' & Hd' & Hkd' & Hiff' & Htg'); [done | done |].
      exists d'. split_and!; [done | done | |].
      + intros v. rewrite Hiff', (has_edge_remove_node _ _ _ _ _ Hrm). naive_solver.
      + intros v t Hvt. destruct (Htg' _ _ Hvt) as [Hvne Hreg'].
        apply lookup_delete_Some. split; [done | done]. }
  exists w'. split_and!; [done | done | done | done | | done].
  intros k a d v t. unfold w'. cbn [space _cells heap].
  intros [Hne Hka]%lookup_delete_Some Hd Hvt.
  destruct (Hrest k a) as (d' & Hd' & _ & _ & Htg'); [done | done |].
  assert (d' = d) as -> by congruence.
  destruct (Htg' _ _ Hvt) as [Hvne Hreg']. split_and!; [done | |].
  - intros ->. destruct (Hlive _ _ Hreg') as (x & Hx & Hkx).
    apply Hvne. congruence.
  - apply lookup_delete_Some. split; [done | done].
Qed.

(** C3, for a consistent space: removing a registered cell returns; the
    cell's coordinate is unregistered, it is no longer a node of the graph
    and no node lists it as a neighbour; every connection a remaining
    registered cell holds is labelled by another coordinate than the removed
    one, points at another cell than the removed one, and refers to the cell
    registered under its label; the space is consistent again. *)
Theorem remove_cell_no_dangling w cell c :
  consistent w →
  is_registered (space w) cell →
  heap (space w) !! cell = Some c →
  ∃ w', remove_cell (base := SpecBase K Rng) cell w = (w', Ok tt) ∧
        _cells (space w') = delete (coordinate c) (_cells (space w)) ∧
        _adj (G w') !! coordinate c = None ∧
        (∀ u, ¬ has_edge (G w') u (coordinate c)) ∧
        (∀ k a d v t,
           _cells (space w') !! k = Some a → heap (space w') !! a = Some d →
           connections d !! v = Some t →
           v ≠ coordinate c ∧ t ≠ cell ∧ _cells (space w') !! v = Some t) ∧
        consistent w'.
Proof.
  intros Hcons Hreg Hc.
  destruct (remove_cell_consistent w cell c Hcons Hreg Hc)
    as (w' & Hrun & Hcells & Hrm & _ & Hnd & Hcons').
  exists w'. split_and!; [done | done | | | done | done].
  - rewrite (nx_remove_node_lookup _ _ _ (coordinate c) Hrm). by rewrite decide_True.
  - intros u Hu. apply (has_edge_remove_node _ _ _ _ _ Hrm) in Hu. naive_solver.
Qed.

(** ** Further properties of the constructor *)

Lemma connects_within_ret {A} X (a : A) :
  connects_within X (mret a : M (World K Rng) A).
Proof. by intros w. Qed.

Lemma connects_within_bind {A B} X (m : M (World K Rng) A) (k : A → M (World K Rng) B) :
  connects_within X m → (∀ a, connects_within X (k a)) → connects_within X (m ≫= k).
Proof.
  intros Hm Hk w. unfold mbind, M_bind.
  destruct (Hm w) as (HG & Hcells & Hid & Hout).
  destruct (m w) as [w' [a|e]]; simpl in *; [|done].
  destruct (Hk a w') as (HG' & Hcells' & Hid' & Hout').
  split_and!; [congruence.. |].
  intros i Hi. by rewrite Hout', Hout.
Qed.

Lemma connects_within_read {A} X (m : M (CellSpace K Rng) A) :
  (∀ s, (m s).1 = s) → connects_within X (liftS m).
Proof.
  intros Hm w. unfold liftS. specialize (Hm (space w)).
  destruct (m (space w)) as [s' r]. simpl in *. by subst s'.
Qed.

Lemma connects_within_deref X cell : connects_within X (liftS (deref (K:=K) (Rng:=Rng) cell)).
Proof. apply connects_within_read. intros s. unfold deref. by destruct (heap s !! cell). Qed.

Lemma connects_within_get_cell X k : connects_within X (liftS (get_cell (K:=K) (Rng:=Rng) k)).
Proof. apply connects_within_read. intros s. unfold get_cell. by destruct (_cells s !! k). Qed.

Lemma connects_within_neighbors X n : connects_within X (G_neighbors (K:=K) (Rng:=Rng) n).
Proof. by intros w. Qed.

Lemma connects_within_connect (X : nat → Prop) cell other key :
  X cell → connects_within X (liftS (connect (K:=K) (Rng:=Rng) cell other key)).
Proof.
  intros HX w. unfold liftS.
  destruct (heap (space w) !! cell) as [c|] eqn:Hc.
  - rewrite (connect_run _ _ _ _ _ Hc). simpl. split_and!; [done | done | |].
    + rewrite list_fmap_insert. apply list_insert_id.
      rewrite list_lookup_fmap, Hc. done.
    + intros i Hi. apply list_lookup_insert_ne. by intros ->.
  - unfold connect. rewrite (bind_Raise _ _ _ (space w) DanglingReference); [done|].
    unfold deref. by rewrite Hc.
Qed.

Lemma connects_within_for_each {A} X (l : list A) (f : A → M (World K Rng) unit) :
  (∀ x, x ∈ l → connects_within X (f x)) → connects_within X (for_each l f).
Proof.
  induction l as [|x l IH]; intros Hf; simpl.
  - apply connects_within_ret.
  - apply connects_within_bind; [apply Hf; by left|].
    intros _. apply IH. intros y Hy. apply Hf. by right.
Qed.

Lemma connects_within_connect_single_cell (X : nat → Prop) cell :
  X cell → connects_within X (_connect_single_cell (K:=K) (Rng:=Rng) cell).
Proof.
  intros HX. unfold _connect_single_cell.
  apply connects_within_bind; [apply connects_within_deref | intros c].
  apply connects_within_bind; [apply connects_within_neighbors | intros nbrs].
  apply connects_within_for_each. intros node_id _.
  apply connects_within_bind; [apply connects_within_get_cell | intros other].
  by apply connects_within_connect.
Qed.

Lemma connect_cells_frame w :
  connects_within (λ i, ∃ k, _cells (space w) !! k = Some i)
    (for_each ((map_to_list (_cells (space w))).*2)
       (_connect_single_cell (K:=K) (Rng:=Rng))).
Proof.
  apply connects_within_for_each. intros a Ha.
  apply connects_within_connect_single_cell. by apply elem_of_all_cells.
Qed.

Lemma connect_cells_unfold w :
  _connect_cells w =
  for_each ((map_to_list (_cells (space w))).*2) _connect_single_cell w.
Proof. unfold _connect_cells. by rewrite (bind_Ok _ _ _ _ _ (liftS_all_cells_run w)). Qed.

(** X1: the connecting pass only rewrites connections, and only those of
    registered cells.  Whether [_connect_cells] returns or raises, the graph
    and the mapping are as it found them, the store holds the same objects
    with the same coordinate and capacity, and every object that is not
    registered is untouched. *)
Theorem connect_cells_only_connects w :
  G (_connect_cells w).1 = G w ∧
  _cells (space (_connect_cells w).1) = _cells (space w) ∧
  identity_of <$> heap (space (_connect_cells w).1) = identity_of <$> heap (space w) ∧
  ∀ i, (∀ k, _cells (space w) !! k ≠ Some i) →
       heap (space (_connect_cells w).1) !! i = heap (space w) !! i.
Proof.
  rewrite connect_cells_unfold.
  destruct (connect_cells_frame w w) as (HG & Hcells & Hid & Hout).
  split_and!; [done..|].
  intros i Hi. apply Hout. intros [k Hk]. by apply (Hi k).
Qed.

Lemma create_loop_store cap rnd (l : list K) : ∀ w,
  ∃ w', for_each l (λ node_id,
          cell ← liftS (new_cell node_id cap rnd);
          liftS (set_cell node_id cell)) w = (w', Ok tt) ∧
        heap (space w') = heap (space w) ++ ((λ n, mkCell n cap rnd ∅) <$> l) ∧
        ∀ k a, _cells (space w') !! k = Some a →
               _cells (space w) !! k = Some a ∨
               (length (heap (space w)) ≤ a ∧
                heap (space w') !! a = Some (mkCell k cap rnd ∅)).
Proof.
  induction l as [|n l IH]; intros w.
  - exists w. split_and!; [done | by rewrite app_nil_r | auto].
  - set (w1 := mkWorld (mkCellSpace (<[n := length (heap (space w))]> (_cells (space w)))
                          (heap (space w) ++ [mkCell n cap rnd ∅])) (G w)).
    destruct (IH w1) as (w' & Hrun & Hheap & Hreg). simpl in Hheap.
    exists w'. split_and!.
    + rewrite <- Hrun. by apply for_each_cons.
    + rewrite Hheap, <- app_assoc. done.
    + intros k a Hka. destruct (Hreg k a Hka) as [Hold | [Hlen Hnew]].
      * simpl in Hold. rewrite lookup_insert in Hold. case_decide as Hk.
        -- injection Hold as <-. subst k. right. split; [done|].
           rewrite Hheap, <- app_assoc. rewrite lookup_app_r by done.
           by rewrite Nat.sub_diag.
        -- by left.
      * right. split; [|done]. simpl in Hlen. rewrite length_app in Hlen. simpl in Hlen. lia.
Qed.

Lemma init_store_facts g cap rnd (h : list (Cell K Rng)) :
  (∀ i c, h !! i = Some c → heap (space (__init__ g cap rnd h).1) !! i = Some c) ∧
  length (heap (space (__init__ g cap rnd h).1)) = length h + length (nodes g) ∧
  (∀ k a, _cells (space (__init__ g cap rnd h).1) !! k = Some a →
     length h ≤ a ∧
     ∃ c, heap (space (__init__ g cap rnd h).1) !! a = Some c ∧
          coordinate c = k ∧ capacity c = cap).
Proof.
  set (w0 := mkWorld (mkCellSpace ∅ h) g).
  destruct (create_loop_store cap rnd (nodes g) w0) as (w1 & Hrun1 & Hheap1 & Hreg1).
  simpl in Hheap1.
  assert (Hcreate : create_cells cap rnd w0 = (w1, Ok tt)).
  { unfold create_cells. by rewrite (bind_Ok G_nodes _ w0 w0 (nodes g) eq_refl). }
  assert (Hinit : __init__ g cap rnd h = _connect_cells w1).
  { unfold __init__. fold w0. by rewrite (bind_Ok _ _ _ _ _ Hcreate). }
  rewrite Hinit, connect_cells_unfold.
  destruct (connect_cells_frame w1 w1) as (_ & Hcells & Hid & Hout).
  assert (Hfresh : ∀ k a, _cells (space w1) !! k = Some a →
                          length h ≤ a ∧ heap (space w1) !! a = Some (mkCell k cap rnd ∅)).
  { intros k a Hka. destruct (Hreg1 k a Hka) as [Hold|Hnew]; [|done].
    simpl in Hold. by rewrite lookup_empty in Hold. }
  split_and!.
  - intros i c Hi. rewrite Hout.
    + rewrite Hheap1. by apply lookup_app_l_Some.
    + intros [k Hk]. apply Hfresh in Hk as [Hlen _].
      apply lookup_lt_Some in Hi. lia.
  - apply (f_equal length) in Hid. rewrite !length_fmap in Hid.
    rewrite Hid, Hheap1, length_app, length_fmap. done.
  - intros k a Hka. rewrite Hcells in Hka. destruct (Hfresh k a Hka) as [Hlen Ha].
    split; [done|].
    apply (f_equal (λ l, l !! a)) in Hid. rewrite !list_lookup_fmap, Ha in Hid.
    destruct (heap (space (for_each _ _ w1).1) !! a) as [c|]; [|done].
    exists c. split; [done|]. simpl in Hid. injection Hid as Hco Hcap Hrnd. done.
Qed.

(** X2: the constructor leaves the objects that were in the store alone and
    creates exactly one object per node.  For every graph, and whether the
    constructor returns or raises, every object the store held before is
    still there unchanged, and the store has grown by the number of nodes. *)
Theorem init_keeps_existing_objects g cap rnd (h : list (Cell K Rng)) :
  (∀ i c, h !! i = Some c → heap (space (__init__ g cap rnd h).1) !! i = Some c) ∧
  length (heap (space (__init__ g cap rnd h).1)) = length h + length (nodes g).
Proof.
  destruct (init_store_facts g cap rnd h) as (Hkeep & Hlen & _). by split.
Qed.

(** X3: every cell the constructor registers is a newly created object that
    carries the key as its coordinate and the capacity passed to the
    constructor, for every graph and whether the constructor returns or
    raises. *)
Theorem init_cells_carry_arguments g cap rnd (h : list (Cell K Rng)) k a :
  _cells (space (__init__ g cap rnd h).1) !! k = Some a →
  length h ≤ a ∧
  ∃ c, heap (space (__init__ g cap rnd h).1) !! a = Some c ∧
       coordinate c = k ∧ capacity c = cap.
Proof.
  destruct (init_store_facts g cap rnd h) as (_ & _ & Hattr). apply Hattr.
Qed.

(** X4: after construction a cell is connected to the neighbours of its node
    and to nothing else.  For every graph, directed or not, the constructor
    returns, and the cell registered at a node [u] holds a connection
    labelled [v] exactly when (u, v) is an edge of the graph, and then the
    connection is to the cell registered at [v]; in particular the cell of
    a node without neighbours holds no connection. *)
Theorem init_connections_are_the_edges g cap rnd (h : list (Cell K Rng)) :
  nx_closed g →
  ∃ w, __init__ g cap rnd h = (w, Ok tt) ∧
       ∀ u a c, _cells (space w) !! u = Some a → heap (space w) !! a = Some c →
         (∀ v, is_Some (connections c !! v) ↔ has_edge g u v) ∧
         (∀ v t, connections c !! v = Some t → _cells (space w) !! v = Some t) ∧
         (_adj g !! u = Some ∅ → connections c = ∅).
Proof.
  intros Hcl.
  destruct (init_coherent g cap rnd h Hcl) as (w & Hrun & HG & Hco).
  exists w. split; [done|]. intros u a c Hu Hc.
  apply coherent_alt in Hco as (_ & Hall).
  destruct (Hall u a Hu) as (c' & Hc' & _ & Hiff & Htg).
  assert (c' = c) as -> by congruence. rewrite HG in Hiff.
  split_and!; [done | done |].
  intros Hiso. apply map_empty. intros v.
  destruct (connections c !! v) as [t|] eqn:Hv; [|done].
  assert (He : has_edge g u v) by (apply Hiff; eauto).
  apply has_edge_spec in He as (ns & Hns & Hin). rewrite Hiso in Hns.
  injection Hns as <-. by apply elem_of_empty in Hin.
Qed.

(** *** Running the connecting pass again *)

Lemma connect_noop s cell other key c :
  heap s !! cell = Some c → connections c !! key = Some other →
  connect cell other key s = (s, Ok tt).
Proof.
  intros Hc Hkey. rewrite (connect_run _ _ _ _ _ Hc).
  rewrite (insert_id _ _ _ Hkey), with_connections_id, (list_insert_id _ _ _ Hc).
  by destruct s.
Qed.

Lemma connect_neighbours_noop (nbrs : list K) cell w c :
  heap (space w) !! cell = Some c →
  (∀ v, v ∈ nbrs → ∃ t, _cells (space w) !! v = Some t ∧ connections c !! v = Some t) →
  for_each nbrs (λ node_id,
    other ← liftS (get_cell node_id);
    liftS (connect cell other node_id)) w = (w, Ok tt).
Proof.
  intros Hc. induction nbrs as [|n nbrs IH]; intros Hall; [done|].
  destruct (Hall n) as (t & Ht & Hconn); [left|].
  rewrite (for_each_cons _ _ _ w w).
  - apply IH. intros v Hv. apply Hall. by right.
  - rewrite (bind_Ok _ _ _ _ _ (liftS_run _ _ _ _ (get_cell_run _ _ _ Ht))).
    destruct w as [sp g]. simpl in *.
    rewrite (liftS_run _ (mkWorld sp g) _ _ (connect_noop _ _ _ _ _ Hc Hconn)).
    by destruct sp.
Qed.

Lemma connect_single_cell_noop w k a :
  coherent w → _cells (space w) !! k = Some a →
  _connect_single_cell a w = (w, Ok tt).
Proof.
  intros (Hbij & Hall)%coherent_alt Hka.
  destruct (Hall k a Hka) as (c & Hc & Hck & Hiff & Htg).
  assert (Hnode : is_Some (_adj (G w) !! k)).
  { apply elem_of_dom. rewrite <- Hbij. apply elem_of_dom. eauto. }
  destruct Hnode as [ns Hns].
  destruct w as [sp g]. simpl in *. unfold _connect_single_cell.
  rewrite (bind_Ok _ _ _ _ _ (liftS_run _ (mkWorld sp g) _ _ (deref_run _ _ _ Hc))).
  rewrite (bind_Ok (G_neighbors (coordinate c)) _ (mkWorld sp g) (mkWorld sp g) (elements ns)).
  - apply (connect_neighbours_noop _ a (mkWorld sp g) c Hc). simpl.
    intros v Hv%elem_of_elements.
    assert (Hv' : is_Some (connections c !! v)).
    { apply Hiff, has_edge_spec. eauto. }
    destruct Hv' as [t Ht]. exists t. split; [|done]. by apply (Htg v t).
  - unfold G_neighbors, neighbors. simpl. by rewrite Hck, Hns.
Qed.

(** X5: on a space that mirrors its graph the connecting pass is a no-op:
    [_connect_cells] returns and leaves the whole state as it found it, so
    connecting twice is the same as connecting once. *)
Theorem connect_cells_idempotent w :
  coherent w → _connect_cells w = (w, Ok tt).
Proof.
  intros Hco. rewrite connect_cells_unfold.
  assert (Hall : ∀ a, a ∈ (map_to_list (_cells (space w))).*2 →
                      _connect_single_cell a w = (w, Ok tt)).
  { intros a [k Hk]%elem_of_all_cells. by apply (connect_single_cell_noop w k a). }
  induction ((map_to_list (_cells (space w))).*2) as [|a la IH]; [done|].
  rewrite (for_each_cons _ _ _ w w); [|apply Hall; by left].
  apply IH. intros b Hb. apply Hall. by right.
Qed.

(** *** [_connect_single_cell] on a cell the graph does not fit *)

Lemma connect_neighbours_missing (nbrs : list K) cell : ∀ w v,
  v ∈ nbrs → _cells (space w) !! v = None →
  is_Some (heap (space w) !! cell) →
  (for_each nbrs (λ node_id,
     other ← liftS (get_cell node_id);
     liftS (connect cell other node_id)) w).2 = Raise KeyError.
Proof.
  induction nbrs as [|n nbrs IH]; intros w v Hv Hnone [c Hc].
  - by apply elem_of_nil in Hv.
  - destruct (_cells (space w) !! n) as [t|] eqn:Hn.
    + assert (Hvn : v ∈ nbrs).
      { apply elem_of_cons in Hv as [->|?]; [congruence | done]. }
      set (w1 := mkWorld (mkCellSpace (_cells (space w))
                   (<[cell := with_connections c (<[n := t]> (connections c))]>
                      (heap (space w)))) (G w)).
      rewrite (for_each_cons _ _ _ w w1).
      * apply (IH w1 v Hvn Hnone). simpl. rewrite list_lookup_insert_eq; [eauto|].
        by eapply lookup_lt_Some.
      * rewrite (bind_Ok _ _ _ _ _ (liftS_run _ _ _ _ (get_cell_run _ _ _ Hn))).
        destruct w as [sp g]. simpl in *.
        by apply (liftS_run _ (mkWorld sp g)), connect_run.
    + simpl. rewrite (bind_Raise _ _ w (mkWorld (space w) (G w)) KeyError); [done|].
      apply bind_Raise, liftS_run. unfold get_cell. by rewrite Hn.
Qed.

(** X6: [_connect_single_cell] fails when the graph does not fit the cell.
    When the cell's coordinate is not a node of the graph, it raises the
    graph's error and leaves the state as it found it; when the node has a
    neighbour for which no cell is registered, it raises KeyError. *)
Theorem connect_single_cell_errors w cell c :
  heap (space w) !! cell = Some c →
  (_adj (G w) !! coordinate c = None →
     _connect_single_cell cell w = (w, Raise NetworkXError)) ∧
  (∀ v, has_edge (G w) (coordinate c) v → _cells (space w) !! v = None →
     (_connect_single_cell cell w).2 = Raise KeyError).
Proof.
  intros Hc. split.
  - intros Hnone. unfold _connect_single_cell.
    rewrite (bind_Ok _ _ _ _ _ (liftS_run _ _ _ _ (deref_run _ _ _ Hc))).
    rewrite (bind_Raise _ _ (mkWorld (space w) (G w)) w NetworkXError); [done|].
    unfold G_neighbors, neighbors. simpl. rewrite Hnone. by destruct w.
  - intros v Hedge Hnone. apply has_edge_spec in Hedge as (ns & Hns & Hv).
    unfold _connect_single_cell.
    rewrite (bind_Ok _ _ _ _ _ (liftS_run _ _ _ _ (deref_run _ _ _ Hc))).
    rewrite (bind_Ok (G_neighbors (coordinate c)) _ (mkWorld (space w) (G w))
               (mkWorld (space w) (G w)) (elements ns)).
    + apply (connect_neighbours_missing _ _ _ v); simpl; [by apply elem_of_elements | done | eauto].
    + unfold G_neighbors, neighbors. simpl. by rewrite Hns.
Qed.

(** ** The graph side of the four methods, over any base class *)

Section any_base.
Context (base : DiscreteSpace K Rng).

Lemma after_super_1 (m : M (CellSpace K Rng) unit) (k : K → M (World K Rng) unit)
    w s' cell c :
  m (space w) = (s', Ok tt) → heap s' !! cell = Some c →
  (liftS m ;; c' ← liftS (deref cell); k (coordinate c')) w =
  k (coordinate c) (mkWorld s' (G w)).
Proof.
  intros Hm Hc. rewrite (super_first _ _ _ _ _ Hm).
  by rewrite (bind_Ok _ _ _ _ _
    (liftS_run _ (mkWorld s' (G w)) _ _ (deref_run s' cell c Hc))).
Qed.

Lemma after_super_2 (m : M (CellSpace K Rng) unit) (k : K → K → M (World K Rng) unit)
    w s' cell1 cell2 c1 c2 :
  m (space w) = (s', Ok tt) → heap s' !! cell1 = Some c1 → heap s' !! cell2 = Some c2 →
  (liftS m ;; c1' ← liftS (deref cell1); c2' ← liftS (deref cell2);
   k (coordinate c1') (coordinate c2')) w =
  k (coordinate c1) (coordinate c2) (mkWorld s' (G w)).
Proof.
  intros Hm Hc1 Hc2. rewrite (super_first _ _ _ _ _ Hm).
  rewrite (bind_Ok _ _ _ _ _
    (liftS_run _ (mkWorld s' (G w)) _ _ (deref_run s' cell1 c1 Hc1))).
  by rewrite (bind_Ok _ _ _ _ _
    (liftS_run _ (mkWorld s' (G w)) _ _ (deref_run s' cell2 c2 Hc2))).
Qed.

(** X7: whatever the base class is, once its [add_cell] has returned,
    [Network.add_cell] returns too: the graph call cannot fail.  The cell's
    coordinate is a node afterwards, with the neighbours it had if it was a
    node already and none otherwise, and every other node keeps its
    neighbours. *)
Theorem add_cell_graph_side w s' cell c :
  super_add_cell cell (space w) = (s', Ok tt) →
  heap s' !! cell = Some c →
  ∃ g', add_cell cell w = (mkWorld s' g', Ok tt) ∧
        _adj g' !! coordinate c = Some (default ∅ (_adj (G w) !! coordinate c)) ∧
        ∀ u, u ≠ coordinate c → _adj g' !! u = _adj (G w) !! u.
Proof.
  intros Hs Hc. exists (nx_add_node (coordinate c) (G w)). split_and!.
  - unfold add_cell. by rewrite (after_super_1 _ G_add_node _ _ _ _ Hs Hc).
  - rewrite nx_add_node_lookup. by rewrite decide_True.
  - intros u Hu. rewrite nx_add_node_lookup. by rewrite decide_False.
Qed.


(** X9: the removing methods do not roll back.  Whatever the base class is,
    when its [remove_connection] has returned but the graph has no edge
    between the two coordinates, [Network.remove_connection] raises the
    graph's error with the cell side as the base class left it and the
    graph as it was; likewise [Network.remove_cell] when the cell's
    coordinate is not a node of the graph. *)
Theorem graph_error_keeps_cell_side w s' :
  (∀ cell1 cell2 c1 c2,
     super_remove_connection cell1 cell2 (space w) = (s', Ok tt) →
     heap s' !! cell1 = Some c1 → heap s' !! cell2 = Some c2 →
     ¬ has_edge (G w) (coordinate c1) (coordinate c2) →
     remove_connection cell1 cell2 w = (mkWorld s' (G w), Raise NetworkXError)) ∧
  (∀ cell c,
     super_remove_cell cell (space w) = (s', Ok tt) →
     heap s' !! cell = Some c →
     _adj (G w) !! coordinate c = None →
     remove_cell cell w = (mkWorld s' (G w), Raise NetworkXError)).
Proof.
  split.
  - intros cell1 cell2 c1 c2 Hs Hc1 Hc2 Hno. unfold remove_connection.
    rewrite (after_super_2 _ G_remove_edge _ _ _ _ _ _ Hs Hc1 Hc2).
    unfold G_remove_edge, nx_remove_edge. simpl.
    by destruct (has_edge (G w) (coordinate c1) (coordinate c2)).
  - intros cell c Hs Hc Hno. unfold remove_cell.
    rewrite (after_super_1 _ G_remove_node _ _ _ _ Hs Hc).
    unfold G_remove_node, nx_remove_node. simpl. by rewrite Hno.
Qed.


(** X11: whatever the base class is, once its [remove_cell] has returned and the
    cell's coordinate is a node of the graph, [Network.remove_cell]
    returns; the graph loses that node and the edges at it, and nothing
    else: the edges between the other nodes and the other nodes stay. *)
Theorem remove_cell_graph_side w s' cell c :
  super_remove_cell cell (space w) = (s', Ok tt) →
  heap s' !! cell = Some c →
  is_Some (_adj (G w) !! coordinate c) →
  ∃ g', remove_cell cell w = (mkWorld s' g', Ok tt) ∧
        (∀ x y, has_edge g' x y ↔
                has_edge (G w) x y ∧ x ≠ coordinate c ∧ y ≠ coordinate c) ∧
        dom (_adj g') = dom (_adj (G w)) ∖ {[coordinate c]}.
Proof.
  intros Hs Hc [ns Hns].
  destruct (nx_remove_node (coordinate c) (G w)) as [g'|e] eqn:Hrm.
  - exists g'. split_and!.
    + unfold remove_cell. rewrite (after_super_1 _ G_remove_node _ _ _ _ Hs Hc).
      unfold G_remove_node. simpl. by rewrite Hrm.
    + intros x y. by apply (has_edge_remove_node _ _ _ _ _ Hrm).
    + by apply (dom_remove_node _ _ _ Hrm).
  - unfold nx_remove_node in Hrm. by rewrite Hns in Hrm.
Qed.

End any_base.

(** ** Adding and removing, composed *)

Lemma nx_add_remove_node g n :
  nx_closed g → _adj g !! n = None →
  nx_remove_node n (nx_add_node n g) = Ok g.
Proof.
  intros Hcl Hn.
  unfold nx_remove_node. rewrite (nx_add_node_fresh _ _ Hn), lookup_insert_eq.
  destruct g as [adj]. cbn [_adj] in *. do 2 f_equal. apply map_eq. intros k.
  rewrite lookup_delete, lookup_fmap. case_decide as Hk; [by subst k|].
  rewrite lookup_insert_ne by done.
  destruct (adj !! k) as [ns|] eqn:Hns; [|done]. simpl. f_equal.
  assert (n ∉ ns); [|set_solver]. intros Hin.
  destruct (nx_closed_edge (mkGraph adj) k n ns Hcl Hns Hin) as [x Hx].
  simpl in Hx. congruence.
Qed.

(** X12: adding a cell and removing it again is a round trip.  For a cell that
    holds no connections and whose coordinate is neither registered nor a
    node of the graph, [add_cell] followed by [remove_cell] returns to the
    very state the space started from: mapping, objects and graph. *)
Theorem add_remove_cell_round_trip w cell c :
  nx_closed (G w) →
  heap (space w) !! cell = Some c →
  _cells (space w) !! coordinate c = None →
  _adj (G w) !! coordinate c = None →
  connections c = ∅ →
  ∃ w1, add_cell (base := SpecBase K Rng) cell w = (w1, Ok tt) ∧
        remove_cell (base := SpecBase K Rng) cell w1 = (w, Ok tt).
Proof.
  intros Hcl Hc Hk Hn Hconn.
  eexists. split; [by apply add_cell_run|].
  set (s1 := mkCellSpace (<[coordinate c := cell]> (_cells (space w))) (heap (space w))).
  assert (Hbase : base_remove_cell cell s1 = (space w, Ok tt)).
  { unfold base_remove_cell.
    rewrite (bind_Ok _ _ _ _ _ (deref_run s1 cell c Hc)).
    rewrite (bind_Ok _ _ _ _ _ (pop_cell_run s1 (coordinate c) cell (lookup_insert_eq _ _ _))).
    rewrite Hconn, map_to_list_empty. simpl. unfold mret, M_ret. f_equal.
    rewrite (delete_insert_id _ _ _ Hk). by destruct (space w). }
  unfold remove_cell.
  rewrite (super_first _ (λ _, c' ← liftS (deref cell); G_remove_node (coordinate c'))
             (mkWorld s1 _) _ _ Hbase).
  rewrite (bind_Ok _ _ _ _ _
    (liftS_run _ (mkWorld (space w) _) _ _ (deref_run (space w) cell c Hc))).
  unfold G_remove_node. cbn [space G].
  rewrite (nx_add_remove_node _ _ Hcl Hn). by destruct w.
Qed.

(** X13: [add_connection] keeps a consistent space consistent.  For two
    registered cells of a consistent space the call returns, and in the
    state it leaves the graph is still undirected, the registered
    coordinates are the nodes, and every registered cell is connected
    exactly to the cells of its node's neighbours. *)
Theorem add_connection_keeps_consistency w cell1 cell2 c1 c2 :
  consistent w →
  is_registered (space w) cell1 → is_registered (space w) cell2 →
  heap (space w) !! cell1 = Some c1 → heap (space w) !! cell2 = Some c2 →
  ∃ w', add_connection (base := SpecBase K Rng) cell1 cell2 w = (w', Ok tt) ∧
        consistent w'.
Proof.
  intros Hcons Hr1 Hr2 Hc1 Hc2.
  rewrite (add_connection_run _ _ _ _ _ Hc1 Hc2).
  eexists. split; [done|].
  pose proof (registered_key _ _ _ Hr1 Hc1) as Hk1.
  pose proof (registered_key _ _ _ Hr2 Hc2) as Hk2.
  apply consistent_alt. apply consistent_alt in Hcons as (Hsym & Hbij & Hall).
  cbn [space G _cells heap]. split_and!.
  - intros u v. rewrite !has_edge_add_edge. naive_solver.
  - rewrite dom_add_edge, <- Hbij.
    apply (elem_of_dom_2 (D := gset K)) in Hk1, Hk2. set_solver.
  - intros k a Hka. destruct (Hall k a Hka) as (d & Hd & Hdk & Hiff & Htg).
    rewrite !update_connections_lookup, Hd.
    assert (Ha1 : a = cell1 ↔ k = coordinate c1).
    { split; [intros -> | intros ->]; congruence. }
    assert (Ha2 : a = cell2 ↔ k = coordinate c2).
    { split; [intros -> | intros ->]; congruence. }
    destruct (decide (a = cell2)), (decide (a = cell1)); simpl; eexists;
      (split; [done|]);
      cbn [with_connections coordinate connections]; (split; [done|]); split.
    all: try (intros v; rewrite has_edge_add_edge, <- Hiff,
                ?lookup_insert_is_Some'; naive_solver).
    all: intros v t; rewrite ?lookup_insert_Some; naive_solver.
Qed.

(** ** Order of the two updates *)

Section ordering.
Context (base : DiscreteSpace K Rng).

(** C10: every mutation method of [Network] calls the base class first and
    the graph afterwards.  For any base class: when the cell-side call
    returns, the method goes on to the graph call from the state the base
    left; when the cell-side call raises, the method raises the same
    exception in the state the base left, and the graph still is the graph
    the method found, with the same nodes and edges. *)
Theorem cell_side_before_graph_side w s' r :
  (∀ cell, super_add_cell cell (space w) = (s', r) →
     add_cell cell w =
       match r with
       | Ok _ => (c ← liftS (deref cell); G_add_node (coordinate c)) (mkWorld s' (G w))
       | Raise e => (mkWorld s' (G w), Raise e)
       end) ∧
  (∀ cell, super_remove_cell cell (space w) = (s', r) →
     remove_cell cell w =
       match r with
       | Ok _ => (c ← liftS (deref cell); G_remove_node (coordinate c)) (mkWorld s' (G w))
       | Raise e => (mkWorld s' (G w), Raise e)
       end) ∧
  (∀ cell1 cell2, super_add_connection cell1 cell2 (space w) = (s', r) →
     add_connection cell1 cell2 w =
       match r with
       | Ok _ => (c1 ← liftS (deref cell1); c2 ← liftS (deref cell2);
                  G_add_edge (coordinate c1) (coordinate c2)) (mkWorld s' (G w))
       | Raise e => (mkWorld s' (G w), Raise e)
       end) ∧
  (∀ cell1 cell2, super_remove_connection cell1 cell2 (space w) = (s', r) →
     remove_connection cell1 cell2 w =
       match r with
       | Ok _ => (c1 ← liftS (deref cell1); c2 ← liftS (deref cell2);
                  G_remove_edge (coordinate c1) (coordinate c2)) (mkWorld s' (G w))
       | Raise e => (mkWorld s' (G w), Raise e)
       end).
Proof.
  repeat split; intros * Hs.
  - unfold add_cell. by rewrite (super_first _ _ _ _ _ Hs).
  - unfold remove_cell. by rewrite (super_first _ _ _ _ _ Hs).
  - unfold add_connection. by rewrite (super_first _ _ _ _ _ Hs).
  - unfold remove_connection. by rewrite (super_first _ _ _ _ _ Hs).
Qed.

End ordering.
End verification.

(** ** The scenario, run *)

(** The constructor builds the scenario space from the scenario graph, and
    the directed space from the directed graph. *)
Example scenario_world_constructed :
  __init__ scenario_graph None None [] = (scenario_world, Ok tt).
Proof. vm_compute. reflexivity. Qed.

Example directed_world_constructed :
  __init__ directed_graph None None [] = (directed_world, Ok tt).
Proof. vm_compute. reflexivity. Qed.

(** The directed graph keeps its neighbours among its nodes, and its space
    has two cells. *)
Lemma init_one_cell_per_node_witness :
  nx_closed directed_graph ∧
  ∃ w, __init__ (Rng := unit) directed_graph None None [] = (w, Ok tt) ∧
       size (_cells (space w)) = 2.
Proof.
  assert (Hcl : nx_closed directed_graph).
  { apply (bool_decide_unpack _). vm_compute. exact I. }
  split; [exact Hcl|].
  destruct (init_one_cell_per_node (Rng := unit) directed_graph None None [] Hcl)
    as (w & Hrun & _ & Hsize & _).
  exists w. split; [exact Hrun | exact Hsize].
Defined.

(** Counterexample to C2 as it is stated.  The directed graph has the edge
    from 1 to 2; the constructor returns, the cell registered at 1 holds the
    connection to the cell registered at 2, and the cell registered at 2
    holds no connection at all, so none to the cell registered at 1. *)
Lemma init_directed_edge_one_way :
  has_edge directed_graph 1 2 = true ∧
  ∃ w, __init__ (Rng := unit) directed_graph None None [] = (w, Ok tt) ∧
       _cells (space w) !! 1 = Some 1 ∧ _cells (space w) !! 2 = Some 0 ∧
       connections <$> heap (space w) !! 1 = Some {[2 := 0]} ∧
       connections <$> heap (space w) !! 0 = Some ∅.
Proof.
  split; [vm_compute; reflexivity|].
  exists directed_world. split_and!; [vm_compute| | | |]; reflexivity.
Qed.

(** In the scenario, which is an undirected graph, the edge (1, 2) is
    mirrored on the cells of 1 and 2. *)
Lemma init_connects_along_edges_witness :
  nx_closed scenario_graph ∧
  ∃ w, __init__ (Rng := unit) scenario_graph None None [] = (w, Ok tt) ∧
       ∃ a1 a2 c1 c2,
         _cells (space w) !! 1 = Some a1 ∧ heap (space w) !! a1 = Some c1 ∧
         _cells (space w) !! 2 = Some a2 ∧ heap (space w) !! a2 = Some c2 ∧
         connections c1 !! 2 = Some a2 ∧ connections c2 !! 1 = Some a1.
Proof.
  assert (Hwf : nx_wf scenario_graph).
  { apply (bool_decide_unpack _). vm_compute. exact I. }
  assert (Hcl : nx_closed scenario_graph).
  { apply (bool_decide_unpack _). vm_compute. exact I. }
  split; [exact Hcl|].
  destruct (init_connects_along_edges (Rng := unit) scenario_graph None None [] Hcl)
    as (w & Hrun & Hedges).
  exists w. split; [exact Hrun|].
  destruct (Hedges 1 2) as (a1 & a2 & c1 & c2 & H1 & Hc1 & H2 & Hc2 & H12 & _ & H21).
  { vm_compute. exact I. }
  exists a1, a2, c1, c2. split_and!; [assumption..|exact (H21 Hwf)].
Defined.

(** Counterexample to C3 as it is stated.  In the space built from the
    directed graph the cell of node 2 is registered; removing it returns,
    the coordinate 2 is unregistered and out of the graph, and the cell of
    node 1, which remains registered, still holds its connection labelled 2
    to the removed cell. *)
Lemma remove_cell_leaves_dangling_connection :
  __init__ (Rng := unit) directed_graph None None [] = (directed_world, Ok tt) ∧
  is_registered (space directed_world) 0 ∧
  coordinate <$> heap (space directed_world) !! 0 = Some 2 ∧
  ∃ w', remove_cell (base := SpecBase nat unit) 0 directed_world = (w', Ok tt) ∧
        _cells (space w') !! 2 = None ∧
        _adj (G w') !! 2 = None ∧
        _cells (space w') !! 1 = Some 1 ∧
        connections <$> heap (space w') !! 1 = Some {[2 := 0]}.
Proof.
  split; [vm_compute; reflexivity|].
  split; [vm_compute; exact I|]. split; [reflexivity|].
  eexists. split_and!.
  - vm_compute. reflexivity.
  - vm_compute. reflexivity.
  - vm_compute. reflexivity.
  - vm_compute. reflexivity.
  - vm_compute. reflexivity.
Qed.

(** Removing the cell of node 2 from the scenario space: the cells of the
    nodes 1 and 3 no longer hold a connection to it. *)
Lemma remove_cell_no_dangling_witness :
  consistent scenario_world ∧
  ∃ w', remove_cell (base := SpecBase nat unit) 0 scenario_world = (w', Ok tt) ∧
        (∀ k a d v t,
           _cells (space w') !! k = Some a → heap (space w') !! a = Some d →
           connections d !! v = Some t → v ≠ 2 ∧ t ≠ 0) ∧
        consistent w'.
Proof.
  assert (Hcons : consistent scenario_world).
  { apply (bool_decide_unpack _). vm_compute. exact I. }
  split; [exact Hcons|].
  destruct (remove_cell_no_dangling scenario_world 0
              (mkCell 2 None None (list_to_map [(1, 2); (3, 1)])) Hcons)
    as (w' & Hrun & _ & _ & _ & Hnd & Hcons').
  - vm_compute. exact I.
  - reflexivity.
  - exists w'. split_and!; [exact Hrun | | exact Hcons'].
    intros k a d v t Hk Hd Hv.
    destruct (Hnd k a d v t Hk Hd Hv) as (Hv' & Ht' & _). split; assumption.
Defined.




(** Counterexample to C6 as it is stated.  The coordinate 2 is registered
    to the object 0; a second cell object with the coordinate 2, the object
    3, is added: the call returns without an error and the coordinate 2 is
    registered to the object 3 from then on. *)
Lemma add_cell_duplicate_returns :
  _cells (space scenario_world_with_second_cell) !! 2 = Some 0 ∧
  coordinate <$> heap (space scenario_world_with_second_cell) !! 3 = Some 2 ∧
  ∃ w', add_cell (base := SpecBase nat unit) 3 scenario_world_with_second_cell
          = (w', Ok tt) ∧
        _cells (space w') !! 2 = Some 3.
Proof.
  split; [reflexivity|]. split; [reflexivity|].
  eexists. split; vm_compute; reflexivity.
Qed.

(** Adding the second cell object for the coordinate 2 to the scenario
    space, whose graph has the node 2. *)
Lemma add_cell_duplicate_overwrites_witness :
  ∃ w', add_cell (base := SpecBase nat unit) 3 scenario_world_with_second_cell
          = (w', Ok tt) ∧
        _cells (space w') !! 2 = Some 3 ∧
        _cells (space w') !! 1 = Some 2 ∧ _cells (space w') !! 3 = Some 1 ∧
        G w' = scenario_graph.
Proof.
  destruct (add_cell_duplicate_overwrites scenario_world_with_second_cell 3
              (mkCell 2 None None ∅) 0)
    as (w' & Hrun & Hnew & Hrest & _ & HG).
  - reflexivity.
  - reflexivity.
  - exists w'. split_and!.
    + exact Hrun.
    + exact Hnew.
    + rewrite (Hrest 1); [reflexivity | discriminate].
    + rewrite (Hrest 3); [reflexivity | discriminate].
    + apply HG. apply (bool_decide_unpack _). vm_compute. exact I.
Defined.



(** The round trip between the cells of the nodes 1 and 3, which share no
    edge in the scenario, and the two calls on the cells of the nodes 1 and
    2, which share one. *)
Lemma add_remove_connection_round_trip_witness :
  consistent scenario_world ∧
  (∃ w1, add_connection (base := SpecBase nat unit) 2 1 scenario_world = (w1, Ok tt) ∧
         remove_connection (base := SpecBase nat unit) 2 1 w1 = (scenario_world, Ok tt) ∧
         remove_connection (base := SpecBase nat unit) 2 1 scenario_world =
           (scenario_world, Raise NetworkXError)) ∧
  (add_connection (base := SpecBase nat unit) 2 0 scenario_world = (scenario_world, Ok tt) ∧
   ∃ w2, remove_connection (base := SpecBase nat unit) 2 0 scenario_world = (w2, Ok tt) ∧
         ¬ has_edge (G w2) 1 2 ∧
         remove_connection (base := SpecBase nat unit) 2 0 w2 = (w2, Raise NetworkXError)).
Proof.
  assert (Hcons : consistent scenario_world).
  { apply (bool_decide_unpack _). vm_compute. exact I. }
  split; [exact Hcons|]. split.
  - apply (add_remove_connection_round_trip scenario_world 2 1
             (mkCell 1 None None {[2 := 0]}) (mkCell 3 None None {[2 := 0]}) Hcons).
    + vm_compute. exact I.
    + vm_compute. exact I.
    + reflexivity.
    + reflexivity.
    + vm_compute. intros [].
  - destruct (add_remove_connection_round_trip scenario_world 2 0
                (mkCell 1 None None {[2 := 0]})
                (mkCell 2 None None (list_to_map [(1, 2); (3, 1)])) Hcons)
      as [_ Hconnected].
    + vm_compute. exact I.
    + vm_compute. exact I.
    + reflexivity.
    + reflexivity.
    + destruct Hconnected as (Hadd & w2 & c1' & c2' & Hrm & Hno & _ & _ & _ & _ & _ & _ & Hagain).
      { vm_compute. exact I. }
      split; [exact Hadd|]. exists w2. split_and!; [exact Hrm | exact Hno | exact Hagain].
Defined.

(** Counterexample to C8 as it is stated.  The cells of the nodes 1 and 2
    are connected already: [add_connection]
    and [remove_connection] both return, and the edge (1, 2) and the
    connection of the cell of node 1 that were there before are gone. *)
Lemma add_remove_connection_loses_old_edge :
  is_registered (space scenario_world) 2 ∧ is_registered (space scenario_world) 0 ∧
  ∃ w1 w2,
    add_connection (base := SpecBase nat unit) 2 0 scenario_world = (w1, Ok tt) ∧
    remove_connection (base := SpecBase nat unit) 2 0 w1 = (w2, Ok tt) ∧
    has_edge (G scenario_world) 1 2 = true ∧
    has_edge (G w2) 1 2 = false ∧
    connections <$> heap (space scenario_world) !! 2 = Some {[2 := 0]} ∧
    connections <$> heap (space w2) !! 2 = Some ∅.
Proof.
  split; [vm_compute; exact I|]. split; [vm_compute; exact I|].
  eexists _, _. split_and!.
  - vm_compute. reflexivity.
  - vm_compute. reflexivity.
  - reflexivity.
  - vm_compute. reflexivity.
  - reflexivity.
  - vm_compute. reflexivity.
Qed.

(** The four methods on the scenario.  [remove_cell] on a cell that is not
    registered: the base class raises and the state, graph included, is the
    one the method found.  [add_cell] and [add_connection] on the same
    cell: the base class returns and the graph call follows.
    [remove_connection] on two cells that share no edge: the base class
    returns, the graph raises afterwards. *)
Lemma cell_side_before_graph_side_witness :
  remove_cell (base := SpecBase nat unit) 3 scenario_world_with_new_cell =
    (scenario_world_with_new_cell, Raise KeyError) ∧
  (∃ w', add_cell (base := SpecBase nat unit) 3 scenario_world_with_new_cell = (w', Ok tt) ∧
         G w' = nx_add_node 4 scenario_graph) ∧
  (∃ w', add_connection (base := SpecBase nat unit) 0 3 scenario_world_with_new_cell
           = (w', Ok tt) ∧
         G w' = nx_add_edge 2 4 scenario_graph) ∧
  remove_connection (base := SpecBase nat unit) 2 1 scenario_world =
    (scenario_world, Raise NetworkXError).
Proof.
  split_and!.
  - apply (proj1 (proj2 (cell_side_before_graph_side (SpecBase nat unit)
                    scenario_world_with_new_cell
                    (space scenario_world_with_new_cell) (Raise KeyError)))).
    vm_compute. reflexivity.
  - eexists. split.
    + etrans.
      * apply (proj1 (cell_side_before_graph_side (SpecBase nat unit)
                        scenario_world_with_new_cell
                        (base_add_cell 3 (space scenario_world_with_new_cell)).1
                        (Ok tt))).
        vm_compute. reflexivity.
      * vm_compute. reflexivity.
    + vm_compute. reflexivity.
  - eexists. split.
    + etrans.
      * apply (proj1 (proj2 (proj2 (cell_side_before_graph_side (SpecBase nat unit)
                        scenario_world_with_new_cell
                        (base_add_connection 0 3 (space scenario_world_with_new_cell)).1
                        (Ok tt))))).
        vm_compute. reflexivity.
      * vm_compute. reflexivity.
    + vm_compute. reflexivity.
  - etrans.
    + apply (proj2 (proj2 (proj2 (cell_side_before_graph_side (SpecBase nat unit)
                      scenario_world
                      (base_remove_connection 2 1 (space scenario_world)).1
                      (Ok tt))))).
      vm_compute. reflexivity.
    + vm_compute. reflexivity.
Defined.

(** ** Further runs *)

(** The cell of node 1, created in a store that held one object already. *)
Lemma init_cells_carry_arguments_witness :
  1 ≤ 3 ∧
  ∃ c, heap (space (__init__ (Rng := unit) scenario_graph (Some 5) None
                      [mkCell 9 None None ∅]).1) !! 3 = Some c ∧
       coordinate c = 1 ∧ capacity c = Some 5.
Proof.
  apply (init_cells_carry_arguments (Rng := unit) scenario_graph (Some 5) None
           [mkCell 9 None None ∅] 1 3).
  vm_compute. reflexivity.
Defined.

(** In the space of the directed graph the cell of node 2, which has no
    successor, holds no connection. *)
Lemma init_connections_are_the_edges_witness :
  nx_closed directed_graph ∧
  ∃ w, __init__ (Rng := unit) directed_graph None None [] = (w, Ok tt) ∧
       ∀ a c, _cells (space w) !! 2 = Some a → heap (space w) !! a = Some c →
              connections c = ∅.
Proof.
  assert (Hcl : nx_closed directed_graph).
  { apply (bool_decide_unpack _). vm_compute. exact I. }
  split; [exact Hcl|].
  destruct (init_connections_are_the_edges (Rng := unit) directed_graph None None [] Hcl)
    as (w & Hrun & Hconn).
  exists w. split; [exact Hrun|]. intros a c Ha Hc.
  destruct (Hconn 2 a c Ha Hc) as (_ & _ & Hiso). apply Hiso. reflexivity.
Defined.

(** Connecting the directed space once more. *)
Lemma connect_cells_idempotent_witness :
  coherent directed_world ∧ _connect_cells directed_world = (directed_world, Ok tt).
Proof.
  assert (Hco : coherent directed_world).
  { apply (bool_decide_unpack _). vm_compute. exact I. }
  split; [exact Hco|]. exact (connect_cells_idempotent directed_world Hco).
Defined.

(** Connecting the unregistered cell for the coordinate 4, which is no node
    of the scenario graph; and connecting the cell of node 1 of the
    directed graph in a space that has no cell for node 2. *)
Lemma connect_single_cell_errors_witness :
  _connect_single_cell 3 scenario_world_with_new_cell =
    (scenario_world_with_new_cell, Raise NetworkXError) ∧
  (_connect_single_cell 0
     (mkWorld (mkCellSpace {[1 := 0]} [mkCell 1 None (None : option unit) ∅])
        directed_graph)).2 = Raise KeyError.
Proof.
  split.
  - apply (proj1 (connect_single_cell_errors scenario_world_with_new_cell 3
                   (mkCell 4 None None ∅) eq_refl)).
    reflexivity.
  - apply (proj2 (connect_single_cell_errors
                   (mkWorld (mkCellSpace {[1 := 0]} [mkCell 1 None (None : option unit) ∅])
                      directed_graph) 0 (mkCell 1 None None ∅) eq_refl) 2).
    + vm_compute. exact I.
    + reflexivity.
Defined.

(** Adding a second cell for the coordinate 2: the node 2 keeps its
    neighbours. *)
Lemma add_cell_graph_side_witness :
  ∃ g', add_cell (base := SpecBase nat unit) 3 scenario_world_with_second_cell =
          (mkWorld (base_add_cell 3 (space scenario_world_with_second_cell)).1 g', Ok tt) ∧
        _adj g' !! 2 = Some (default ∅ (_adj scenario_graph !! 2)) ∧
        ∀ u, u ≠ 2 → _adj g' !! u = _adj scenario_graph !! u.
Proof.
  apply (add_cell_graph_side (SpecBase nat unit) scenario_world_with_second_cell
           (base_add_cell 3 (space scenario_world_with_second_cell)).1 3
           (mkCell 2 None None ∅)).
  - vm_compute. reflexivity.
  - vm_compute. reflexivity.
Defined.


(** Disconnecting the cells of the nodes 1 and 3, which share no edge; and
    removing the cell of node 2 of the directed space from under a graph
    that has no node. *)
Lemma graph_error_keeps_cell_side_witness :
  remove_connection (base := SpecBase nat unit) 2 1 scenario_world =
    (scenario_world, Raise NetworkXError) ∧
  remove_cell (base := SpecBase nat unit) 0 (mkWorld (space directed_world) (mkGraph ∅)) =
    (mkWorld (base_remove_cell 0 (space directed_world)).1 (mkGraph ∅), Raise NetworkXError).
Proof.
  split.
  - apply (proj1 (graph_error_keeps_cell_side (SpecBase nat unit) scenario_world
                    (space scenario_world)) 2 1
             (mkCell 1 None None {[2 := 0]}) (mkCell 3 None None {[2 := 0]})).
    + vm_compute. reflexivity.
    + reflexivity.
    + reflexivity.
    + vm_compute. intros [].
  - apply (proj2 (graph_error_keeps_cell_side (SpecBase nat unit)
                    (mkWorld (space directed_world) (mkGraph ∅))
                    (base_remove_cell 0 (space directed_world)).1) 0
             (mkCell 2 None None ∅)).
    + vm_compute. reflexivity.
    + vm_compute. reflexivity.
    + reflexivity.
Defined.


(** Removing the cell of node 2. *)
Lemma remove_cell_graph_side_witness :
  ∃ g', remove_cell (base := SpecBase nat unit) 0 scenario_world =
          (mkWorld (base_remove_cell 0 (space scenario_world)).1 g', Ok tt) ∧
        (∀ x y, has_edge g' x y ↔ has_edge scenario_graph x y ∧ x ≠ 2 ∧ y ≠ 2) ∧
        dom (_adj g') = dom (_adj scenario_graph) ∖ {[2]}.
Proof.
  apply (remove_cell_graph_side (SpecBase nat unit) scenario_world
           (base_remove_cell 0 (space scenario_world)).1 0
           (mkCell 2 None None ∅)).
  - vm_compute. reflexivity.
  - vm_compute. reflexivity.
  - vm_compute. eexists. reflexivity.
Defined.

(** Adding the fresh cell for the coordinate 4 and removing it again. *)
Lemma add_remove_cell_round_trip_witness :
  ∃ w1, add_cell (base := SpecBase nat unit) 3 scenario_world_with_new_cell = (w1, Ok tt) ∧
        remove_cell (base := SpecBase nat unit) 3 w1 = (scenario_world_with_new_cell, Ok tt).
Proof.
  apply (add_remove_cell_round_trip scenario_world_with_new_cell 3 (mkCell 4 None None ∅)).
  - apply (bool_decide_unpack _). vm_compute. exact I.
  - reflexivity.
  - reflexivity.
  - reflexivity.
  - reflexivity.
Defined.

(** Connecting the cells of the nodes 1 and 3 leaves a consistent space. *)
Lemma add_connection_keeps_consistency_witness :
  consistent scenario_world ∧
  ∃ w', add_connection (base := SpecBase nat unit) 2 1 scenario_world = (w', Ok tt) ∧
        consistent w'.
Proof.
  assert (Hcons : consistent scenario_world).
  { apply (bool_decide_unpack _). vm_compute. exact I. }
  split; [exact Hcons|].
  apply (add_connection_keeps_consistency scenario_world 2 1
           (mkCell 1 None None {[2 := 0]}) (mkCell 3 None None {[2 := 0]}) Hcons).
  - vm_compute. exact I.
  - vm_compute. exact I.
  - reflexivity.
  - reflexivity.
Defined.
